(** * Visible-element locator extraction (src/index.ts)

    A shallow embedding of [extractVisibleElementLocators] and the
    functions it closes over: the visibility evaluator, the CSS locator
    generator, the name extractor, the traversal over a page and its
    frames, and the polling loop with its stop handle.

    - The page is a snapshot: a list of elements in document order, each
      with the properties the in-page functions read.  A pass works on
      one snapshot; the pulses of a session may each find another.
    - The calls the code awaits on the driver either settle with a value
      or reject; a rejection is [Throw], and [try]/[catch] is written
      out.  Which calls on an element reject is part of the snapshot
      (its [faults]) and is the same for every handle to the element;
      [context.$$] and [element.contentFrame()] have outcomes of their
      own.  Every combination of failures is covered.
    - The selector engine of the browser and the locator engine of the
      driver are an interface ([Browser]); the properties hold for every
      implementation of it.  A reference engine for compound selectors
      instantiates it on concrete pages.
    - [allFoundElements] is a finite map; the iteration order of the
      JavaScript [Map] is not modelled.
    - The callback of the interval timer runs as one step: passes that
      overlap because one outlasts the interval are not modelled.
    - Strings are sequences of 8-bit characters; numbers that are only
      compared (pixel sizes, the parsed opacity) are rationals; lengths,
      counts and indices are naturals or integers. *)

From Stdlib Require Import ZArith QArith Lia Ascii DecimalString.
From stdpp Require Import gmap strings list fin_maps.

#[local] Set Warnings "-clear-no-such-hyp".

Local Open Scope Z_scope.
Local Open Scope nat_scope.
Local Open Scope stdpp_scope.

(** ** Settled promises and completions *)

(** The outcome of an awaited call: a value, or a rejection that the
    caller sees as an exception. *)
Inductive Result (A : Type) : Type :=
| Ok (a : A)
| Throw.
Arguments Ok {A} a.
Arguments Throw {A}.

#[global] Instance Result_ret : MRet Result := @Ok.
#[global] Instance Result_bind : MBind Result := λ A B f r,
  match r with Ok a => f a | Throw => Throw end.
#[global] Instance Result_fmap : FMap Result := λ A B f r,
  match r with Ok a => Ok (f a) | Throw => Throw end.

(** [try { body } catch { handler }] for a body that yields a value. *)
Definition try_catch {A} (body : Result A) (handler : A) : A :=
  match body with Ok a => a | Throw => handler end.

(** How a function body or a loop ends: normally, or with an exception
    that escapes it. *)
Inductive Completion := Normal | Abrupt.

(** ** Strings as JavaScript uses them *)

Module JS.

(** The double quote, for the attribute selectors the code builds. *)
Definition dquote : string := String "034"%char EmptyString.

(** Truthiness of a string: every string but the empty one. *)
Definition truthy (s : string) : bool :=
  match s with EmptyString => false | String _ _ => true end.

(** [toLowerCase], on the ASCII letters. *)
Definition lowerChar (c : ascii) : ascii :=
  let n := nat_of_ascii c in
  if (65 <=? n) && (n <=? 90) then ascii_of_nat (n + 32) else c.

Fixpoint toLowerCase (s : string) : string :=
  match s with
  | EmptyString => EmptyString
  | String c s' => String (lowerChar c) (toLowerCase s')
  end.

(** White space and line terminators that [trim] removes (the 8-bit
    ones: TAB, LF, VT, FF, CR, SP and NBSP). *)
Definition isWhiteSpace (c : ascii) : bool :=
  match c with
  | "009" | "010" | "011" | "012" | "013" | " " | "160" => true
  | _ => false
  end%char.

Fixpoint trimStart (s : string) : string :=
  match s with
  | EmptyString => EmptyString
  | String c s' => if isWhiteSpace c then trimStart s' else s
  end.

Fixpoint trimEnd (s : string) : string :=
  match s with
  | EmptyString => EmptyString
  | String c s' =>
      match trimEnd s' with
      | EmptyString => if isWhiteSpace c then EmptyString else String c EmptyString
      | t => String c t
      end
  end.

Definition trim (s : string) : string := trimEnd (trimStart s).

(** [s.substring(0, n)]: a negative end counts as 0, an end beyond the
    string as its length. *)
Definition substring0 (n : Z) (s : string) : string :=
  String.substring 0 (Z.to_nat n) s.

(** [s.includes(sub)]. *)
Fixpoint includes (s sub : string) : bool :=
  String.prefix sub s ||
  match s with
  | EmptyString => false
  | String _ s' => includes s' sub
  end.

(** [s.split(' ')[0]]: the part of [s] before its first space. *)
Fixpoint splitSpaceHead (s : string) : string :=
  match s with
  | EmptyString => EmptyString
  | String c s' => if Ascii.eqb c " " then EmptyString else String c (splitSpaceHead s')
  end.

(** [array.indexOf(x)], -1 when [x] is absent. *)
Fixpoint indexOf (l : list nat) (x : nat) : Z :=
  match l with
  | [] => (-1)%Z
  | y :: l' =>
      if bool_decide (y = x) then 0%Z
      else let i := indexOf l' x in if (i <? 0)%Z then (-1)%Z else (i + 1)%Z
  end.

(** ASCII white space, which separates the tokens of a class attribute:
    TAB, LF, FF, CR and SP. *)
Definition isAsciiWhiteSpace (c : ascii) : bool :=
  match c with
  | "009" | "010" | "012" | "013" | " " => true
  | _ => false
  end%char.

(** The maximal runs of characters of [s] that are not ASCII white
    space; [cur] is the run being read. *)
Fixpoint tokensFrom (cur : string) (s : string) : list string :=
  match s with
  | EmptyString => if truthy cur then [cur] else []
  | String c s' =>
      if isAsciiWhiteSpace c
      then (if truthy cur then [cur] else []) ++ tokensFrom EmptyString s'
      else tokensFrom (cur +:+ String c EmptyString) s'
  end.

Definition tokens (s : string) : list string := tokensFrom EmptyString s.

(** The members of [l] that are not in [seen], each at its first place. *)
Fixpoint distinct (seen l : list string) : list string :=
  match l with
  | [] => []
  | x :: l' =>
      if bool_decide (x ∈ seen) then distinct seen l'
      else x :: distinct (x :: seen) l'
  end.

(** Conversion of an integer to its decimal string. *)
Definition showZ (z : Z) : string := NilZero.string_of_int (Z.to_int z).

(** [x > 0] for the result of [parseFloat]; [None] is NaN, which
    compares false. *)
Definition gtZero (x : option Q) : bool :=
  match x with
  | Some q => negb (Qle_bool q 0)
  | None => false
  end.

(** [a < b] and [a >= b] on numbers. *)
Definition lt (a b : Q) : bool := negb (Qle_bool b a).
Definition ge (a b : Q) : bool := Qle_bool b a.

End JS.

(** ** The page snapshot *)

(** An element is named by its position in document order. *)
Abbreviation NodeId := nat.

(** The awaited driver calls made on an element handle.  The three
    [evaluate] calls are told apart by the page function they run. *)
Inductive Call :=
  | CallBoundingBox      (* elementHandle.boundingBox() *)
  | CallIsVisible        (* evaluate of the computed-style check *)
  | CallCssLocator       (* evaluate of the locator function *)
  | CallName             (* evaluate of the name function *)
  | CallParentElement    (* evaluateHandle(el => el.parentElement) *)
  | CallDispose.         (* parentHandle.dispose() *)

#[global] Instance Call_eq_dec : EqDecision Call.
Proof. solve_decision. Defined.

(** [window.getComputedStyle(el)]: the three properties read.  [opacity]
    is the number [parseFloat] returns for it. *)
Record CSSStyleDeclaration := {
    display : string;
    visibility : string;
    opacity : option Q
  }.

(** The box [boundingBox()] resolves to. *)
Record BoundingBox := {
    boxWidth : Q;
    boxHeight : Q
  }.

(** An element of the snapshot.  [boundingBox] is what the driver call
    resolves to when it does not reject; [faults] lists the driver
    calls on this element that reject. *)
Record HTMLElement := {
    tagName : string;
    attributes : list (string * string);
    innerText : string;
    computedStyle : CSSStyleDeclaration;
    offsetWidth : Z;
    offsetHeight : Z;
    parentElement : option NodeId;
    boundingBox : option BoundingBox;
    faults : list Call
  }.

Abbreviation Document := (list HTMLElement).

Module Element.
Section Accessors.
Variable el : HTMLElement.

Definition getAttribute (name : string) : option string :=
  snd <$> List.find (λ kv, bool_decide (fst kv = name)) (attributes el).

Definition hasAttribute (name : string) : bool :=
  bool_decide (is_Some (getAttribute name)).

(** [getAttribute(a)] read as a string, [null] as the empty one. *)
Definition attribute (name : string) : string :=
  default EmptyString (getAttribute name).

(** [el.hasAttribute(a) && el.getAttribute(a)] as a condition. *)
Definition attributeSet (name : string) : bool :=
  hasAttribute name && JS.truthy (attribute name).

(** [el.id] and [el.className] reflect the attributes. *)
Definition id : string := attribute "id".
Definition className : string := attribute "class".

(** [el.classList]: the white-space separated tokens of the class
    attribute, without repetition. *)
Definition classList : list string := JS.distinct [] (JS.tokens className).

End Accessors.
End Element.

(** [parent.children], in document order. *)
Definition children (d : Document) (p : NodeId) : list NodeId :=
  filter (λ n, (d !! n) ≫= parentElement = Some p) (seq 0 (length d)).

(** ** The browser's selector engine and the driver's locator engine *)

Class Browser := {
    (** [document.querySelectorAll(selector)] inside the page: the
        matches in document order, or a SyntaxError. *)
    querySelectorAll : Document → string → Result (list NodeId);
    (** [context.locator(selector).count()]. *)
    locatorCount : Document → string → Result nat
  }.

(** [document.querySelector(selector)]: the first match, if any. *)
Definition querySelector `{Browser} (d : Document) (selector : string)
  : Result (option NodeId) :=
  head <$> querySelectorAll d selector.

(** An awaited call [c] on the handle of [h] that computes [f] from the
    element.  A handle that names no element of the snapshot rejects. *)
Definition call {A} (d : Document) (h : NodeId) (c : Call)
    (f : HTMLElement → Result A) : Result A :=
  match d !! h with
  | Some el => if bool_decide (c ∈ faults el) then Throw else f el
  | None => Throw
  end.

(** ** The session state *)

Record ExtractedLocator := {
    locator : string;
    name : string;
    count : nat
  }.

(** [allFoundElements]: the map from locator string to descriptor. *)
Abbreviation Inventory := (gmap string ExtractedLocator).

Record BoundingInfo := {
    isVisible : bool;
    width : Q;
    height : Q
  }.

(** [{ isVisible: false, width: 0, height: 0 }] *)
Definition notVisible : BoundingInfo :=
  {| isVisible := false; width := 0; height := 0 |}.

(** ** Pages and frames *)

(** A [Page | Frame] context of the traversal: its document, what
    [context.$$(...)] resolves to (the candidates in enumeration order),
    and for each candidate what [element.contentFrame()] resolves to.
    Both calls may reject. *)
#[local] Set Warnings "-register-all".
Inductive Frame : Type :=
  | mkFrame (document : Document)
            (elements : Result (list (NodeId * Result (option Frame)))).

Definition document (context : Frame) : Document :=
  match context with mkFrame d _ => d end.

Definition elements (context : Frame)
  : Result (list (NodeId * Result (option Frame))) :=
  match context with mkFrame _ es => es end.

(** How the body of the [for] loop leaves an element: by [continue], or
    by reaching the frame check of line 264. *)
Inductive LoopControl := Continue | Proceed.

(** The state of the polling loop (lines 39-41).

    The session variables of the closure, next to the part of the
    runtime they act on: the interval timers that are installed and not
    cleared.  [passes] counts the traversals that pulses have started;
    it is not a variable of the code. *)
Record Session := {
    allFoundElements : Inventory;
    pollingIntervalId : option nat;
    stopPolling : bool;
    activeTimers : gset nat;
    nextTimer : nat;
    passes : nat
  }.

(** What can happen to a session once it exists.  A pulse comes with
    the page as the timer finds it. *)
Inductive Event :=
  | EvStart                             (* startDynamicElementObservation() *)
  | EvPulse (timer : nat) (page : Frame) (* an interval timer fires *)
  | EvStop.                             (* stopObservation() *)

(** ** A reference engine for compound selectors

    The selectors the generator builds are compound selectors: an
    optional type selector followed by id, class, attribute-equality and
    [:nth-of-type] parts.  This engine parses that fragment and matches
    it against a snapshot; any other string is a SyntaxError here.  The
    theorems below hold for every [Browser]; this one makes the examples
    run. *)

Module Reference.

Inductive Simple :=
  | SType (tag : string)
  | SId (i : string)
  | SClass (c : string)
  | SAttr (attr value : string)
  | SNthOfType (k : nat).

Definition isDigit (c : ascii) : bool :=
  let n := nat_of_ascii c in (48 <=? n) && (n <=? 57).

Definition isIdentStart (c : ascii) : bool :=
  let n := nat_of_ascii c in
  ((65 <=? n) && (n <=? 90)) || ((97 <=? n) && (n <=? 122))
  || (n =? 95) || (n =? 45) || (128 <=? n).

Definition isIdentChar (c : ascii) : bool := isIdentStart c || isDigit c.

(** The longest prefix whose characters satisfy [p], and the rest. *)
Fixpoint span (p : ascii → bool) (s : string) : string * string :=
  match s with
  | EmptyString => (EmptyString, EmptyString)
  | String c s' =>
      if p c then let '(a, b) := span p s' in (String c a, b)
      else (EmptyString, s)
  end.

(** All the characters of [s] satisfy [p]. *)
Fixpoint allChars (p : ascii → bool) (s : string) : bool :=
  match s with
  | EmptyString => true
  | String c s' => p c && allChars p s'
  end.

(** [s] is an identifier: it needs no escaping in a selector. *)
Definition isIdentifier (s : string) : bool :=
  match s with
  | EmptyString => false
  | String c s' => isIdentStart c && allChars isIdentChar s'
  end.

(** An identifier at the head of [s]. *)
Definition ident (s : string) : Result (string * string) :=
  match s with
  | String c _ => if isIdentStart c then Ok (span isIdentChar s) else Throw
  | EmptyString => Throw
  end.

(** [s] without the prefix [pre]. *)
Fixpoint stripPrefix (pre s : string) : Result string :=
  match pre, s with
  | EmptyString, _ => Ok s
  | String a pre', String b s' =>
      if Ascii.eqb a b then stripPrefix pre' s' else Throw
  | String _ _, EmptyString => Throw
  end.

Definition number (s : string) : Result nat :=
  match NilEmpty.uint_of_string s with
  | Some u => if JS.truthy s then Ok (Nat.of_uint u) else Throw
  | None => Throw
  end.

Fixpoint parseParts (fuel : nat) (s : string) : Result (list Simple) :=
  match fuel with
  | 0 => Throw
  | S fuel =>
      match s with
      | EmptyString => Ok []
      | String c rest =>
          if Ascii.eqb c "#" then
            '(i, rest) ← ident rest;
            (SId i ::.) <$> parseParts fuel rest
          else if Ascii.eqb c "." then
            '(i, rest) ← ident rest;
            (SClass i ::.) <$> parseParts fuel rest
          else if Ascii.eqb c "[" then
            '(attr, rest) ← ident rest;
            rest ← stripPrefix ("=" +:+ JS.dquote) rest;
            let '(value, rest) :=
              span (λ c, negb (Ascii.eqb c "034" || Ascii.eqb c "\")) rest in
            rest ← stripPrefix (JS.dquote +:+ "]") rest;
            (SAttr attr value ::.) <$> parseParts fuel rest
          else if Ascii.eqb c ":" then
            rest ← stripPrefix "nth-of-type(" rest;
            let '(digits, rest) := span isDigit rest in
            k ← number digits;
            rest ← stripPrefix ")" rest;
            (SNthOfType k ::.) <$> parseParts fuel rest
          else Throw
      end
  end.

Definition parse (s : string) : Result (list Simple) :=
  match s with
  | EmptyString => Throw
  | String c _ =>
      if isIdentStart c then
        let '(tag, rest) := span isIdentChar s in
        (SType tag ::.) <$> parseParts (S (String.length rest)) rest
      else parseParts (S (String.length s)) s
  end.

Definition matchesSimple (d : Document) (n : NodeId) (el : HTMLElement)
    (part : Simple) : bool :=
  match part with
  | SType tag => bool_decide (JS.toLowerCase (tagName el) = JS.toLowerCase tag)
  | SId i => bool_decide (Element.getAttribute el "id" = Some i)
  | SClass c => bool_decide (c ∈ Element.classList el)
  | SAttr attr value => bool_decide (Element.getAttribute el attr = Some value)
  | SNthOfType k =>
      match parentElement el with
      | Some parent =>
          let sameType :=
            filter (λ s, tagName <$> d !! s = Some (tagName el)) (children d parent) in
          bool_decide (JS.indexOf sameType n + 1 = Z.of_nat k)%Z
      | None => bool_decide (k = 1)
      end
  end.

Definition matches (d : Document) (parts : list Simple) (n : NodeId) : bool :=
  match d !! n with
  | Some el => forallb (matchesSimple d n el) parts
  | None => false
  end.

Definition select (d : Document) (selector : string) : Result (list NodeId) :=
  parts ← parse selector;
  Ok (filter (λ n, matches d parts n = true) (seq 0 (length d))).

#[export] Instance browser : Browser := {|
  querySelectorAll := select;
  locatorCount d selector := length <$> select d selector
|}.

(** Elements for the examples: visible, 100 by 20 pixels, no faults. *)
Definition shown : CSSStyleDeclaration :=
  {| display := "block"; visibility := "visible"; opacity := Some 1%Q |}.

Definition node (tag : string) (attrs : list (string * string)) (text : string)
    (parent : option NodeId) : HTMLElement :=
  {| tagName := tag; attributes := attrs; innerText := text;
     computedStyle := shown; offsetWidth := 100; offsetHeight := 20;
     parentElement := parent;
     boundingBox := Some {| boxWidth := 100; boxHeight := 20 |};
     faults := [] |}.

(** The same element drawn [w] by [h] pixels. *)
Definition sized (w h : Z) (el : HTMLElement) : HTMLElement :=
  {| tagName := tagName el; attributes := attributes el;
     innerText := innerText el; computedStyle := computedStyle el;
     offsetWidth := w; offsetHeight := h;
     parentElement := parentElement el;
     boundingBox := Some {| boxWidth := inject_Z w; boxHeight := inject_Z h |};
     faults := faults el |}.

(** A frame whose candidates are all the elements of [d], in document
    order, none of which embeds a frame. *)
Definition flat (d : Document) : Frame :=
  mkFrame d (Ok ((λ n, (n, Ok None)) <$> seq 0 (length d))).

End Reference.

(** ** Pages for the examples *)

Module Pages.
Import Reference.

(** [<body><button id="submit-btn">Go</button>
      <input placeholder="Enter email" name="email">
      <div>x</div> (3 by 3 pixels)
      <p>Hello world</p></body>] *)
Definition form : Document :=
  [ node "BODY" [] "Go x Hello world" None;
    node "BUTTON" [("id", "submit-btn")] "Go" (Some 0);
    node "INPUT" [("placeholder", "Enter email"); ("name", "email")]
         EmptyString (Some 0);
    sized 3 3 (node "DIV" [] "x" (Some 0));
    node "P" [] "Hello world" (Some 0) ].

(** [<body><div id="g"><button id="c">Buy</button></div></body>] *)
Definition card : Document :=
  [ node "BODY" [] "Buy" None;
    node "DIV" [("id", "g")] "Buy" (Some 0);
    node "BUTTON" [("id", "c")] "Buy" (Some 1) ].



(** [<body><div id="a.b">text</div><div id="x:y">text</div></body>] *)
Definition dottedId : Document :=
  [ node "BODY" [] "text text" None;
    node "DIV" [("id", "a.b")] "text" (Some 0);
    node "DIV" [("id", "x:y")] "text" (Some 0) ].

(** [<body><div id="p"><div class="md:flex">text</div></div></body>] *)
Definition utilityClass : Document :=
  [ node "BODY" [] "text" None;
    node "DIV" [("id", "p")] "text" (Some 0);
    node "DIV" [("class", "md:flex")] "text" (Some 1) ].

(** [<div style="display: none" id="off">text</div>] *)
Definition offDiv : HTMLElement :=
  {| tagName := "DIV"; attributes := [("id", "off")]; innerText := "text";
     computedStyle := {| display := "none"; visibility := "visible";
                         opacity := Some 1%Q |};
     offsetWidth := 100; offsetHeight := 20; parentElement := Some 0;
     boundingBox := Some {| boxWidth := 100; boxHeight := 20 |};
     faults := [] |}.

(** [<body><div style="display: none" id="off">text</div></body>] *)
Definition hiddenDiv : Document :=
  [ node "BODY" [] EmptyString None; offDiv ].

(** What happens to the session of the examples: a pulse, a second
    start, a pulse of the cleared timer and one of the new timer, the
    stop, and a late pulse. *)
Definition history : list Event :=
  [ EvPulse 0 (flat form); EvStart; EvPulse 0 (flat form);
    EvPulse 1 (flat card); EvStop; EvPulse 1 (flat form) ].

(** The element [el] with the driver calls [calls] rejecting. *)
Definition failing (calls : list Call) (el : HTMLElement) : HTMLElement :=
  {| tagName := tagName el; attributes := attributes el;
     innerText := innerText el; computedStyle := computedStyle el;
     offsetWidth := offsetWidth el; offsetHeight := offsetHeight el;
     parentElement := parentElement el; boundingBox := boundingBox el;
     faults := calls |}.

(** A page with a detached div, a div whose name evaluation rejects,
    and an iframe that embeds [card]. *)
Definition flaky : Document :=
  [ node "BODY" [] "text" None;
    failing [CallBoundingBox; CallIsVisible; CallCssLocator; CallName;
             CallParentElement]
            (node "DIV" [("id", "gone")] "text" (Some 0));
    failing [CallName] (node "DIV" [("id", "mute")] "text" (Some 0));
    node "IFRAME" [("id", "inner")] EmptyString (Some 0) ].


(** An inventory that holds the entry of [#p]. *)
Definition withParent : Inventory :=
  {[ "#p" := {| locator := "#p"; name := "text"; count := 1 |} ]}.

(** [<body><label for="email">Email address </label>
      <input id="email" title="Your email">
      <label>Subscribe <input type="checkbox" title="News"></label>
    </body>] *)
Definition labelled : Document :=
  [ node "BODY" [] "Email address Subscribe" None;
    node "LABEL" [("for", "email")] "Email address " (Some 0);
    node "INPUT" [("id", "email"); ("title", "Your email")] EmptyString (Some 0);
    node "LABEL" [] "Subscribe " (Some 0);
    node "INPUT" [("type", "checkbox"); ("title", "News")] EmptyString (Some 3) ].

(** An inventory with an entry that no element of [card] generates. *)
Definition withStale : Inventory :=
  {[ "#old" := {| locator := "#old"; name := "gone"; count := 1 |} ]}.



End Pages.

(** ** The functions of one extraction session

    The section variables are what the closures of
    [extractVisibleElementLocators] capture: the two options that the
    traversal reads, and the engines behind the driver. *)

Section Extraction.
Context `{Browser}.
Variable minElementSize : Q.
Variable nameMaxLength : Z.

(** *** Visibility evaluator (lines 48-73) *)

(** The page function of the [evaluate] call, lines 59-65. *)
Definition isActuallyVisible (el : HTMLElement) : bool :=
  bool_decide (display (computedStyle el) ≠ "none") &&
  bool_decide (visibility (computedStyle el) ≠ "hidden") &&
  JS.gtZero (opacity (computedStyle el)) &&
  (0 <? offsetWidth el)%Z && (0 <? offsetHeight el)%Z.

Definition getElementVisibilityAndBoundingBox (d : Document) (h : NodeId)
  : BoundingInfo :=
  try_catch
    (boundingBox ← call d h CallBoundingBox (λ el, Ok (boundingBox el));
     match boundingBox with
     | None => Ok notVisible
     | Some box =>
         isActuallyVisible ← call d h CallIsVisible (λ el, Ok (isActuallyVisible el));
         Ok {| isVisible := isActuallyVisible;
               width := boxWidth box; height := boxHeight box |}
     end)
    notVisible.

(** The gate of line 213 and of line 233, negated: the element is
    visible and at least [minElementSize] wide and high. *)
Definition qualifies (b : BoundingInfo) : bool :=
  isVisible b && JS.ge (width b) minElementSize && JS.ge (height b) minElementSize.

(** *** Locator generator (lines 81-147) *)

(** [[attr="value"]] *)
Definition attributeSelector (attr value : string) : string :=
  "[" +:+ attr +:+ "=" +:+ JS.dquote +:+ value +:+ JS.dquote +:+ "]".

(** Lines 106-120: tag name, classes, role and type. *)
Definition structuralSelector (el : HTMLElement) : string :=
  let selector := JS.toLowerCase (tagName el) in
  let selector :=
    if JS.truthy (Element.className el) then
      let classList :=
        filter (λ c, JS.truthy c && negb (JS.includes c " ")) (Element.classList el) in
      if 0 <? length classList
      then selector +:+ "." +:+ String.concat "." classList
      else selector
    else selector in
  let selector :=
    if Element.attributeSet el "role"
    then selector +:+ attributeSelector "role" (Element.attribute el "role")
    else selector in
  if Element.attributeSet el "type"
  then selector +:+ attributeSelector "type" (Element.attribute el "type")
  else selector.

(** Lines 124-139: the positional suffix, inside its own try. *)
Definition nthOfType (d : Document) (self : NodeId) (el : HTMLElement)
    (selector : string) : string :=
  try_catch
    (found ← querySelectorAll d selector;
     Ok (if 1 <? length found then
           match parentElement el with
           | Some parent =>
               let siblings := children d parent in
               let sameTagSiblings :=
                 filter (λ s, tagName <$> d !! s = Some (tagName el)) siblings in
               let index := (JS.indexOf sameTagSiblings self + 1)%Z in
               if (0 <? index)%Z
               then selector +:+ ":nth-of-type(" +:+ JS.showZ index +:+ ")"
               else selector
           | None => selector
           end
         else selector))
    selector.

(** The page function of the [evaluate] call, lines 83-142.  The
    uniqueness test of the id is outside any try of the page function:
    a SyntaxError there rejects the whole evaluation. *)
Definition cssLocatorFn (d : Document) (self : NodeId) (el : HTMLElement)
  : Result string :=
  byId ← (if JS.truthy (Element.id el) then
            found ← querySelectorAll d ("#" +:+ Element.id el);
            Ok (if bool_decide (length found = 1)
                then Some ("#" +:+ Element.id el) else None)
          else Ok None);
  match byId with
  | Some selector => Ok selector
  | None =>
      if Element.attributeSet el "data-testid" then
        Ok (attributeSelector "data-testid" (Element.attribute el "data-testid"))
      else if Element.attributeSet el "data-test-id" then
        Ok (attributeSelector "data-test-id" (Element.attribute el "data-test-id"))
      else if Element.attributeSet el "name" then
        Ok (attributeSelector "name" (Element.attribute el "name"))
      else
        Ok (nthOfType d self el (structuralSelector el))
  end.

(** [null] is [None]. *)
Definition generateCssLocator (d : Document) (h : NodeId) : option string :=
  try_catch (Some <$> call d h CallCssLocator (cssLocatorFn d h)) None.

(** *** Name extractor (lines 155-200) *)

(** Lines 194-196. *)
Definition fallbackName (el : HTMLElement) : string :=
  let name := JS.toLowerCase (tagName el) in
  if JS.truthy (Element.id el) then
    name +:+ " (ID: " +:+ Element.id el +:+ ")"
  else if JS.truthy (Element.className el) then
    name +:+ " (Class: " +:+ JS.splitSpaceHead (Element.className el) +:+ ")"
  else name.

(** The page function of the [evaluate] call, lines 156-199. *)
Definition nameFn (d : Document) (el : HTMLElement) (maxLength : Z)
  : Result string :=
  byLabel ← (if JS.truthy (Element.id el) then
               label ← querySelector d
                 ("label[for=" +:+ JS.dquote +:+ Element.id el +:+ JS.dquote +:+ "]");
               Ok (match label ≫= (d !!.) with
                   | Some label =>
                       if JS.truthy (innerText label)
                       then Some (JS.substring0 maxLength (JS.trim (innerText label)))
                       else None
                   | None => None
                   end)
             else Ok None);
  match byLabel with
  | Some name => Ok name
  | None =>
      let byParent :=
        match parentElement el ≫= (d !!.) with
        | Some parent =>
            if bool_decide (JS.toLowerCase (tagName parent) = "label")
               && JS.truthy (innerText parent)
            then Some (JS.substring0 maxLength (JS.trim (innerText parent)))
            else None
        | None => None
        end in
      match byParent with
      | Some name => Ok name
      | None =>
          if Element.attributeSet el "title" then
            Ok (JS.substring0 maxLength (JS.trim (Element.attribute el "title")))
          else if Element.attributeSet el "aria-label" then
            Ok (JS.substring0 maxLength (JS.trim (Element.attribute el "aria-label")))
          else if Element.attributeSet el "placeholder" then
            Ok (JS.substring0 maxLength (JS.trim (Element.attribute el "placeholder")))
          else if Element.attributeSet el "alt" then
            Ok (JS.substring0 maxLength (JS.trim (Element.attribute el "alt")))
          else if JS.truthy (innerText el)
                  && (0 <? String.length (JS.trim (innerText el))) then
            let text := JS.trim (innerText el) in
            Ok (JS.substring0 (Z.min (Z.of_nat (String.length text)) maxLength) text)
          else
            Ok (JS.substring0 maxLength (fallbackName el))
      end
  end.

Definition getElementName (d : Document) (h : NodeId) (maxLength : Z)
  : Result string :=
  call d h CallName (λ el, nameFn d el maxLength).

(** *** Traversal engine (lines 206-269) *)

(** Lines 226-244: the parent of the candidate loses its entry.  The
    whole block is inside a try whose handler is empty; [dispose] is its
    last statement, so a rejection of it comes after the [delete] and
    changes nothing. *)
Definition prioritizeChild (d : Document) (element : NodeId)
    (allFoundElements : Inventory) : Inventory :=
  try_catch
    (parentHandle ← call d element CallParentElement (λ el, Ok (parentElement el));
     match parentHandle with
     | Some parentElement =>
         let allFoundElements' :=
           match generateCssLocator d parentElement with
           | Some parentLocator =>
               if JS.truthy parentLocator
                  && bool_decide (is_Some (allFoundElements !! parentLocator))
               then
                 let parent := getElementVisibilityAndBoundingBox d parentElement in
                 if isVisible parent
                    && JS.ge (width parent) minElementSize
                    && JS.ge (height parent) minElementSize
                 then delete parentLocator allFoundElements
                 else allFoundElements
               else allFoundElements
           | None => allFoundElements
           end in
         Ok (try_catch
               (call d parentElement CallDispose (λ _, Ok allFoundElements'))
               allFoundElements')
     | None => Ok allFoundElements
     end)
    allFoundElements.

(** Lines 247-261: the locator is counted and, when it matches, named
    and recorded.  A rejection of the count or of the name extraction is
    caught and leaves the inventory as it is. *)
Definition validateAndRecord (d : Document) (element : NodeId)
    (locator : string) (allFoundElements : Inventory) : Inventory :=
  try_catch
    (count ← locatorCount d locator;
     if 0 <? count then
       elementName ← getElementName d element nameMaxLength;
       Ok (<[locator := {| locator := locator;
                           name := elementName;
                           count := count |}]> allFoundElements)
     else Ok allFoundElements)
    allFoundElements.

(** Lines 211-261: the loop body up to the frame check. *)
Definition examineElement (d : Document) (element : NodeId)
    (allFoundElements : Inventory) : LoopControl * Inventory :=
  let info := getElementVisibilityAndBoundingBox d element in
  if negb (isVisible info)
     || JS.lt (width info) minElementSize
     || JS.lt (height info) minElementSize
  then (Continue, allFoundElements)
  else
    match generateCssLocator d element with
    | None => (Continue, allFoundElements)
    | Some locator =>
        if negb (JS.truthy locator) then (Continue, allFoundElements)
        else
          let allFoundElements := prioritizeChild d element allFoundElements in
          (Proceed, validateAndRecord d element locator allFoundElements)
    end.

(** Lines 206-269.  The result is how the call ends and the inventory it
    leaves behind: the map is mutated in place, so what was written
    before an exception stays written. *)
Fixpoint traverseAndExtract (context : Frame) (allFoundElements : Inventory)
  : Completion * Inventory :=
  match context with
  | mkFrame d (Ok elements) =>
      (fix loop (elements : list (NodeId * Result (option Frame)))
                (allFoundElements : Inventory) : Completion * Inventory :=
         match elements with
         | [] => (Normal, allFoundElements)
         | (element, contentFrame) :: rest =>
             match examineElement d element allFoundElements with
             | (Continue, allFoundElements) => loop rest allFoundElements
             | (Proceed, allFoundElements) =>
                 match contentFrame with
                 | Throw => (Abrupt, allFoundElements)
                 | Ok None => loop rest allFoundElements
                 | Ok (Some frameElement) =>
                     match traverseAndExtract frameElement allFoundElements with
                     | (Normal, allFoundElements) => loop rest allFoundElements
                     | (Abrupt, allFoundElements) => (Abrupt, allFoundElements)
                     end
                 end
             end
         end) elements allFoundElements
  | mkFrame _ Throw => (Abrupt, allFoundElements)
  end.

(** *** The polling loop (lines 275-312) *)

(** [clearInterval(id)] *)
Definition clearInterval (id : nat) (s : Session) : Session :=
  {| allFoundElements := allFoundElements s;
     pollingIntervalId := pollingIntervalId s;
     stopPolling := stopPolling s;
     activeTimers := activeTimers s ∖ {[id]};
     nextTimer := nextTimer s;
     passes := passes s |}.

(** [pollingIntervalId = v] *)
Definition setPollingIntervalId (v : option nat) (s : Session) : Session :=
  {| allFoundElements := allFoundElements s;
     pollingIntervalId := v;
     stopPolling := stopPolling s;
     activeTimers := activeTimers s;
     nextTimer := nextTimer s;
     passes := passes s |}.

(** [pollingIntervalId = setInterval(...)]: a timer that was never used
    before is installed and its handle stored. *)
Definition setInterval (s : Session) : Session :=
  {| allFoundElements := allFoundElements s;
     pollingIntervalId := Some (nextTimer s);
     stopPolling := stopPolling s;
     activeTimers := activeTimers s ∪ {[nextTimer s]};
     nextTimer := S (nextTimer s);
     passes := passes s |}.

(** Lines 275-290. *)
Definition startDynamicElementObservation (s : Session) : Session :=
  let s := match pollingIntervalId s with
           | Some id => clearInterval id s
           | None => s
           end in
  setInterval s.

(** Lines 279-289: the callback of the interval, run when the timer
    [timer] fires.  A timer that was cleared does not fire. *)
Definition pulse (page : Frame) (timer : nat) (s : Session) : Session :=
  if bool_decide (timer ∈ activeTimers s) then
    if stopPolling s then
      match pollingIntervalId s with
      | Some id => setPollingIntervalId None (clearInterval id s)
      | None => s
      end
    else
      {| allFoundElements := snd (traverseAndExtract page (allFoundElements s));
         pollingIntervalId := pollingIntervalId s;
         stopPolling := stopPolling s;
         activeTimers := activeTimers s;
         nextTimer := nextTimer s;
         passes := S (passes s) |}
  else s.

(** Lines 304-311. *)
Definition stopObservation (s : Session) : Session :=
  let s := {| allFoundElements := allFoundElements s;
              pollingIntervalId := pollingIntervalId s;
              stopPolling := true;
              activeTimers := activeTimers s;
              nextTimer := nextTimer s;
              passes := passes s |} in
  match pollingIntervalId s with
  | Some id => setPollingIntervalId None (clearInterval id s)
  | None => s
  end.

(** Line 300. *)
Definition getLocators (s : Session) : list ExtractedLocator :=
  snd <$> map_to_list (allFoundElements s).

(** Lines 39-41, 272 and 293: the session after the awaited first
    traversal and the start of the polling.  A first traversal that
    throws rejects the whole call. *)
Definition extractVisibleElementLocators (page : Frame) : Result Session :=
  match traverseAndExtract page ∅ with
  | (Normal, found) =>
      Ok (startDynamicElementObservation
            {| allFoundElements := found;
               pollingIntervalId := None;
               stopPolling := false;
               activeTimers := ∅;
               nextTimer := 0;
               passes := 0 |})
  | (Abrupt, _) => Throw
  end.

Definition step (s : Session) (e : Event) : Session :=
  match e with
  | EvStart => startDynamicElementObservation s
  | EvPulse timer page => pulse page timer s
  | EvStop => stopObservation s
  end.

Definition run (s : Session) (es : list Event) : Session :=
  foldl step s es.


(** ** What a pass does to the inventory

    The writes of a pass do not depend on the inventory it starts from:
    the only read, [allFoundElements.has(parentLocator)], guards a
    [delete].  A pass is therefore a fixed list of writes. *)

Inductive Op :=
  | OpSet (key : string) (value : ExtractedLocator)
  | OpDelete (key : string).

Definition applyOp (allFoundElements : Inventory) (op : Op) : Inventory :=
  match op with
  | OpSet key value => <[key := value]> allFoundElements
  | OpDelete key => delete key allFoundElements
  end.

Definition applyOps (ops : list Op) (allFoundElements : Inventory) : Inventory :=
  foldl applyOp allFoundElements ops.

(** What a list of writes does to the entry of one key. *)
Definition opAt (key : string) (entry : option ExtractedLocator) (op : Op)
  : option ExtractedLocator :=
  match op with
  | OpSet key' value => if bool_decide (key' = key) then Some value else entry
  | OpDelete key' => if bool_decide (key' = key) then None else entry
  end.

Definition opsAt (key : string) (ops : list Op) (entry : option ExtractedLocator)
  : option ExtractedLocator :=
  foldl (opAt key) entry ops.

(** The keys a list of writes records. *)
Definition recorded (ops : list Op) : list string :=
  omap (λ op, match op with OpSet key _ => Some key | OpDelete _ => None end) ops.

(** The parent of [element], as line 227 resolves it. *)
Definition parentOf (d : Document) (element : NodeId) : Result (option NodeId) :=
  call d element CallParentElement (λ el, Ok (parentElement el)).

(** The write of lines 226-244. *)
Definition parentOps (d : Document) (element : NodeId) : list Op :=
  match parentOf d element with
  | Ok (Some parent) =>
      match generateCssLocator d parent with
      | Some parentLocator =>
          if JS.truthy parentLocator
             && qualifies (getElementVisibilityAndBoundingBox d parent)
          then [OpDelete parentLocator] else []
      | None => []
      end
  | _ => []
  end.

(** The write of lines 247-261. *)
Definition recordOps (d : Document) (element : NodeId) (locator : string)
  : list Op :=
  match locatorCount d locator with
  | Ok count =>
      if 0 <? count then
        match getElementName d element nameMaxLength with
        | Ok elementName =>
            [OpSet locator {| locator := locator;
                              name := elementName;
                              count := count |}]
        | Throw => []
        end
      else []
  | Throw => []
  end.

(** The writes of the loop body for one element; [None] when the body
    leaves by [continue]. *)
Definition elementOps (d : Document) (element : NodeId) : option (list Op) :=
  if qualifies (getElementVisibilityAndBoundingBox d element) then
    match generateCssLocator d element with
    | Some locator =>
        if JS.truthy locator
        then Some (parentOps d element ++ recordOps d element locator)
        else None
    | None => None
    end
  else None.

(** The writes of a whole pass and how it ends. *)
Fixpoint trace (context : Frame) : Completion * list Op :=
  match context with
  | mkFrame d (Ok elements) =>
      (fix loop (elements : list (NodeId * Result (option Frame)))
         : Completion * list Op :=
         match elements with
         | [] => (Normal, [])
         | (element, contentFrame) :: rest =>
             match elementOps d element with
             | None => loop rest
             | Some ops =>
                 match contentFrame with
                 | Throw => (Abrupt, ops)
                 | Ok None => let '(c, later) := loop rest in (c, ops ++ later)
                 | Ok (Some frameElement) =>
                     match trace frameElement with
                     | (Normal, inner) =>
                         let '(c, later) := loop rest in (c, ops ++ inner ++ later)
                     | (Abrupt, inner) => (Abrupt, ops ++ inner)
                     end
                 end
             end
         end) elements
  | mkFrame _ Throw => (Abrupt, [])
  end.

(** The loops of [traverseAndExtract] and of [trace] by themselves. *)
Definition traverseElements (d : Document)
    (elements : list (NodeId * Result (option Frame)))
    (allFoundElements : Inventory) : Completion * Inventory :=
  traverseAndExtract (mkFrame d (Ok elements)) allFoundElements.

Definition traceElements (d : Document)
    (elements : list (NodeId * Result (option Frame))) : Completion * list Op :=
  trace (mkFrame d (Ok elements)).

(** The documents of a context and of the frames below it. *)
Fixpoint documents (context : Frame) : list Document :=
  match context with
  | mkFrame d (Ok elements) =>
      d :: (elements ≫= λ candidate,
              match snd candidate with
              | Ok (Some frameElement) => documents frameElement
              | _ => []
              end)
  | mkFrame d Throw => [d]
  end.

(** Every enumeration and every frame resolution that the pass performs
    settles: the context can be enumerated, and so can the frames that
    the pass enters; [contentFrame()] resolves for every candidate that
    reaches line 264. *)
Fixpoint settled (context : Frame) : bool :=
  match context with
  | mkFrame d (Ok elements) =>
      forallb (λ candidate,
                 match elementOps d (fst candidate) with
                 | None => true
                 | Some _ =>
                     match snd candidate with
                     | Ok (Some frameElement) => settled frameElement
                     | Ok None => true
                     | Throw => false
                     end
                 end) elements
  | mkFrame _ Throw => false
  end.

(** The candidates a pass over a settled context examines, in order:
    those of the context, and after each one that is not left by
    [continue] those of the frame it embeds. *)
Fixpoint visits (context : Frame) : list (Document * NodeId) :=
  match context with
  | mkFrame d (Ok elements) =>
      (fix loop (elements : list (NodeId * Result (option Frame))) :=
         match elements with
         | [] => []
         | (element, contentFrame) :: rest =>
             (d, element) ::
             match elementOps d element, contentFrame with
             | Some _, Ok (Some frameElement) => visits frameElement ++ loop rest
             | _, _ => loop rest
             end
         end) elements
  | mkFrame _ Throw => []
  end.

(** An element that the computed-style check of lines 59-65 rejects. *)
Definition notRendered (el : HTMLElement) : Prop :=
  display (computedStyle el) = "none"
  ∨ visibility (computedStyle el) = "hidden"
  ∨ match opacity (computedStyle el) with
    | Some o => (o <= 0)%Q
    | None => True
    end
  ∨ offsetWidth el = 0%Z
  ∨ offsetHeight el = 0%Z.

(** The timers the runtime holds are exactly the one the session
    remembers. *)
Definition oneTimer (s : Session) : Prop :=
  activeTimers s = match pollingIntervalId s with
                   | Some id => {[id]}
                   | None => ∅
                   end.

Definition visitsElements (d : Document)
    (elements : list (NodeId * Result (option Frame))) : list (Document * NodeId) :=
  visits (mkFrame d (Ok elements)).


(** [value] under [key] is an entry as a pass over [page] writes it: the
    key is the locator, the count is what the locator engine reports for
    it in a document of the page and is at least 1, and the name is what
    the name extractor returns for an element of that document. *)
Definition written (page : Frame) (key : string) (value : ExtractedLocator)
  : Prop :=
  locator value = key
  ∧ 1 ≤ count value
  ∧ ∃ d element,
      d ∈ documents page
      ∧ locatorCount d key = Ok (count value)
      ∧ getElementName d element nameMaxLength = Ok (name value).


(** The elements of [d] whose id attribute is [i]. *)
Definition withId (d : Document) (i : string) : list NodeId :=
  filter (λ n, Element.id <$> d !! n = Some i) (seq 0 (length d)).

(** Both engines read [#i] as the selector of the elements whose id is
    [i]. *)
Definition idSelectorDenotes (d : Document) (i : string) : Prop :=
  querySelectorAll d ("#" +:+ i) = Ok (withId d i)
  ∧ locatorCount d ("#" +:+ i) = Ok (length (withId d i)).

(** A string without white space at its head. *)
Definition noLeadingSpace (s : string) : Prop :=
  match s with
  | EmptyString => True
  | String c _ => JS.isWhiteSpace c = false
  end.

(** The pages that the pulses among [es] find. *)
Definition pagesOf (es : list Event) : list Frame :=
  omap (λ e, match e with EvPulse _ page => Some page | _ => None end) es.

(** The inventory after the loop body has examined the candidates [vs]
    one after the other. *)
Definition examineAll (allFoundElements : Inventory)
    (vs : list (Document * NodeId)) : Inventory :=
  foldl (λ found v, snd (examineElement (fst v) (snd v) found)) allFoundElements vs.

(** [s] begins with [p]. *)
Definition startsWith (p s : string) : Prop := ∃ rest, s = p +:+ rest.


Definition opKey (op : Op) : string :=
  match op with OpSet key _ => key | OpDelete key => key end.


(** The attributes the locator generator tries after the id, and those
    the name extractor tries after the labels, in the order of the
    code. *)
Definition locatorAttributes : list string :=
  ["data-testid"; "data-test-id"; "name"].

Definition nameAttributes : list string :=
  ["title"; "aria-label"; "placeholder"; "alt"].

(** The condition of line 163: the parent is a label with text. *)
Definition insideLabel (d : Document) (el : HTMLElement) : bool :=
  match parentElement el ≫= (d !!.) with
  | Some parent =>
      bool_decide (JS.toLowerCase (tagName parent) = "label")
      && JS.truthy (innerText parent)
  | None => false
  end.

(** The same-tag siblings of lines 128-129, the element included. *)
Definition sameTagSiblings (d : Document) (el : HTMLElement) (parent : NodeId)
  : list NodeId :=
  filter (λ s, tagName <$> d !! s = Some (tagName el)) (children d parent).

(** The selector of line 159. *)
Definition labelSelector (el : HTMLElement) : string :=
  "label[for=" +:+ JS.dquote +:+ Element.id el +:+ JS.dquote +:+ "]".

(** Lines 158-161 return nothing: the element has no id, or the lookup
    finds no label, or the label found has no text. *)
Definition noLabelFor (d : Document) (el : HTMLElement) : Prop :=
  Element.id el = EmptyString
  ∨ ∃ found,
      querySelectorAll d (labelSelector el) = Ok found
      ∧ match head found ≫= (d !!.) with
        | Some label => innerText label = EmptyString
        | None => True
        end.

(** * Properties *)

(** ** Strings *)

Lemma substring0_length n s :
  String.length (JS.substring0 n s) = Nat.min (Z.to_nat n) (String.length s).
Proof.
  unfold JS.substring0. generalize (Z.to_nat n) as m. clear n.
  intros m. revert s. induction m as [|m IH]; intros [|c s]; simpl; auto.
Qed.


Lemma substring0_whole n s :
  (Z.of_nat (String.length s) ≤ n)%Z → JS.substring0 n s = s.
Proof.
  unfold JS.substring0. intros Hn.
  assert (String.length s ≤ Z.to_nat n) as Hm by lia.
  revert Hm. generalize (Z.to_nat n) as m. clear. intros m. revert s.
  induction m as [|m IH]; intros [|c s]; simpl; intros Hm; auto; try lia.
  f_equal. apply IH. lia.
Qed.

(** Cutting at the smaller of the length and the bound is cutting at
    the bound (line 190). *)
Lemma substring0_min n s :
  JS.substring0 (Z.min (Z.of_nat (String.length s)) n) s = JS.substring0 n s.
Proof.
  destruct (Z.le_gt_cases (Z.of_nat (String.length s)) n) as [Hle|Hgt].
  - rewrite Z.min_l by done. rewrite !substring0_whole; auto; lia.
  - by rewrite Z.min_r by lia.
Qed.

Lemma trimStart_noLeadingSpace s : noLeadingSpace (JS.trimStart s).
Proof.
  induction s as [|c s IH]; simpl; [done|].
  destruct (JS.isWhiteSpace c) eqn:Hc; [done|]. simpl. done.
Qed.

Lemma trimStart_fixed s : noLeadingSpace s → JS.trimStart s = s.
Proof. destruct s as [|c s]; simpl; [done|]. by intros ->. Qed.

Lemma trimEnd_noLeadingSpace s : noLeadingSpace s → noLeadingSpace (JS.trimEnd s).
Proof.
  destruct s as [|c s]; simpl; [done|]. intros Hc.
  destruct (JS.trimEnd s); simpl; by rewrite ?Hc.
Qed.

Lemma trimEnd_trimEnd s : JS.trimEnd (JS.trimEnd s) = JS.trimEnd s.
Proof.
  induction s as [|c s IH]; simpl; [done|].
  destruct (JS.trimEnd s) as [|a t] eqn:Ht.
  - destruct (JS.isWhiteSpace c) eqn:Hc; simpl; by rewrite ?Hc.
  - change (JS.trimEnd (String c (String a t))) with
      (match JS.trimEnd (String a t) with
       | EmptyString =>
           if JS.isWhiteSpace c then EmptyString else String c EmptyString
       | t' => String c t'
       end).
    by rewrite IH.
Qed.

Lemma trim_noLeadingSpace s : noLeadingSpace (JS.trim s).
Proof. apply trimEnd_noLeadingSpace, trimStart_noLeadingSpace. Qed.

(** [trim] yields a string that [trim] leaves alone. *)
Lemma trim_trim s : JS.trim (JS.trim s) = JS.trim s.
Proof.
  unfold JS.trim at 1. rewrite (trimStart_fixed (JS.trim s)).
  - apply trimEnd_trimEnd.
  - apply trim_noLeadingSpace.
Qed.

Lemma truthy_nonempty s : JS.truthy s = true ↔ s ≠ EmptyString.
Proof. destruct s; simpl; split; intros; congruence. Qed.

Lemma append_cons c s t : String c s +:+ t = String c (s +:+ t).
Proof. reflexivity. Qed.

Lemma append_nonempty_l s t : s ≠ EmptyString → s +:+ t ≠ EmptyString.
Proof. destruct s as [|c s]; [congruence|]. by rewrite append_cons. Qed.

Lemma append_assoc (s t u : string) : (s +:+ t) +:+ u = s +:+ (t +:+ u).
Proof.
  induction s as [|c s IH]; [done|]. by rewrite !append_cons, IH.
Qed.

Lemma toLowerCase_nonempty s : s ≠ EmptyString → JS.toLowerCase s ≠ EmptyString.
Proof. destruct s; simpl; congruence. Qed.

(** ** The loop of a pass, one element at a time *)

Lemma traverseElements_nil d inv : traverseElements d [] inv = (Normal, inv).
Proof. reflexivity. Qed.

Lemma traverseElements_cons d element contentFrame rest inv :
  traverseElements d ((element, contentFrame) :: rest) inv =
  match examineElement d element inv with
  | (Continue, inv1) => traverseElements d rest inv1
  | (Proceed, inv1) =>
      match contentFrame with
      | Throw => (Abrupt, inv1)
      | Ok None => traverseElements d rest inv1
      | Ok (Some frameElement) =>
          match traverseAndExtract frameElement inv1 with
          | (Normal, inv2) => traverseElements d rest inv2
          | (Abrupt, inv2) => (Abrupt, inv2)
          end
      end
  end.
Proof. reflexivity. Qed.

Lemma traceElements_nil d : traceElements d [] = (Normal, []).
Proof. reflexivity. Qed.

Lemma traceElements_cons d element contentFrame rest :
  traceElements d ((element, contentFrame) :: rest) =
  match elementOps d element with
  | None => traceElements d rest
  | Some ops =>
      match contentFrame with
      | Throw => (Abrupt, ops)
      | Ok None => let '(c, later) := traceElements d rest in (c, ops ++ later)
      | Ok (Some frameElement) =>
          match trace frameElement with
          | (Normal, inner) =>
              let '(c, later) := traceElements d rest in (c, ops ++ inner ++ later)
          | (Abrupt, inner) => (Abrupt, ops ++ inner)
          end
      end
  end.
Proof. reflexivity. Qed.

(** Induction over a context and the frames below it. *)
Lemma Frame_nested_ind (P : Frame → Prop) :
  (∀ d, P (mkFrame d Throw)) →
  (∀ d elements,
     Forall (λ candidate,
               match snd candidate with
               | Ok (Some frameElement) => P frameElement
               | _ => True
               end) elements →
     P (mkFrame d (Ok elements))) →
  ∀ context, P context.
Proof.
  intros Hthrow Hok.
  fix IH 1. intros [d [elements|]]; [|apply Hthrow].
  apply Hok.
  induction elements as [|[element [[frameElement|]|]] rest IHrest];
    constructor; simpl; auto.
Qed.

(** ** Visibility evaluator *)

Lemma gate_qualifies b :
  negb (isVisible b) || JS.lt (width b) minElementSize
    || JS.lt (height b) minElementSize
  = negb (qualifies b).
Proof.
  unfold qualifies, JS.lt, JS.ge.
  destruct (isVisible b), (Qle_bool minElementSize (width b)),
    (Qle_bool minElementSize (height b)); reflexivity.
Qed.

Lemma qualifies_spec b :
  qualifies b = true ↔
  isVisible b = true ∧ (minElementSize <= width b)%Q ∧ (minElementSize <= height b)%Q.
Proof.
  unfold qualifies, JS.ge. rewrite !andb_true_iff, !Qle_bool_iff. tauto.
Qed.

Lemma notRendered_invisible el : notRendered el → isActuallyVisible el = false.
Proof.
  unfold notRendered, isActuallyVisible.
  intros [Hd|[Hv|[Ho|[Hw|Hh]]]].
  - rewrite Hd. reflexivity.
  - rewrite Hv. by rewrite andb_false_r.
  - destruct (opacity (computedStyle el)) as [o|]; simpl.
    + apply Qle_bool_iff in Ho. rewrite Ho. simpl. by rewrite !andb_false_r.
    + by rewrite !andb_false_r.
  - rewrite Hw. simpl. by rewrite !andb_false_r.
  - rewrite Hh. simpl. by rewrite !andb_false_r.
Qed.

Lemma visibility_of_element d h el :
  d !! h = Some el →
  getElementVisibilityAndBoundingBox d h =
  if bool_decide (CallBoundingBox ∈ faults el) then notVisible
  else match boundingBox el with
       | None => notVisible
       | Some box =>
           if bool_decide (CallIsVisible ∈ faults el) then notVisible
           else {| isVisible := isActuallyVisible el;
                   width := boxWidth box; height := boxHeight box |}
       end.
Proof.
  intros Hel. unfold getElementVisibilityAndBoundingBox, call. rewrite Hel.
  destruct (bool_decide (CallBoundingBox ∈ faults el)); [done|]. simpl.
  destruct (boundingBox el) as [box|]; [|done]. simpl.
  by destruct (bool_decide (CallIsVisible ∈ faults el)).
Qed.

Lemma visibility_of_missing d h :
  d !! h = None → getElementVisibilityAndBoundingBox d h = notVisible.
Proof.
  intros Hel. unfold getElementVisibilityAndBoundingBox, call. by rewrite Hel.
Qed.

Lemma examineElement_skip d h inv :
  qualifies (getElementVisibilityAndBoundingBox d h) = false →
  examineElement d h inv = (Continue, inv).
Proof.
  intros Hq. unfold examineElement. by rewrite gate_qualifies, Hq.
Qed.

Lemma examineElement_proceed d h inv inv' :
  examineElement d h inv = (Proceed, inv') →
  qualifies (getElementVisibilityAndBoundingBox d h) = true.
Proof.
  unfold examineElement. rewrite gate_qualifies.
  destruct (qualifies _); [done|]. simpl. congruence.
Qed.

(** C6.  An element with [display: none], [visibility: hidden], an
    opacity that is not positive, or a rendered width or height of 0 is
    reported invisible and does not qualify; the loop body leaves it by
    [continue] with the inventory as it was, and the pass goes on as if
    the element were not enumerated.  The evaluator reports
    [{false, 0, 0}] when the handle is stale, the bounding box call
    rejects or resolves to [null], or the style evaluation rejects.
    The loop body gets past its gate only for an element that is visible
    and at least [minElementSize] wide and high; any other element is
    left by [continue], in particular, for a positive [minElementSize],
    one whose bounding box has a width or a height of 0. *)
Theorem hidden_element_not_recorded d h el inv :
  d !! h = Some el →
  notRendered el →
  isVisible (getElementVisibilityAndBoundingBox d h) = false
  ∧ qualifies (getElementVisibilityAndBoundingBox d h) = false
  ∧ examineElement d h inv = (Continue, inv)
  ∧ (∀ contentFrame rest,
       traverseElements d ((h, contentFrame) :: rest) inv
       = traverseElements d rest inv)
  ∧ (∀ d' h',
       (d' !! h' = None
        ∨ ∃ el', d' !! h' = Some el'
                 ∧ (CallBoundingBox ∈ faults el' ∨ boundingBox el' = None
                    ∨ CallIsVisible ∈ faults el')) →
       getElementVisibilityAndBoundingBox d' h' = notVisible)
  ∧ (∀ d' h' inv' inv'',
       examineElement d' h' inv' = (Proceed, inv'') →
       isVisible (getElementVisibilityAndBoundingBox d' h') = true
       ∧ (minElementSize <= width (getElementVisibilityAndBoundingBox d' h'))%Q
       ∧ (minElementSize <= height (getElementVisibilityAndBoundingBox d' h'))%Q)
  ∧ (∀ d' h' inv',
       ¬ (isVisible (getElementVisibilityAndBoundingBox d' h') = true
          ∧ (minElementSize <= width (getElementVisibilityAndBoundingBox d' h'))%Q
          ∧ (minElementSize <= height (getElementVisibilityAndBoundingBox d' h'))%Q) →
       examineElement d' h' inv' = (Continue, inv'))
  ∧ (∀ d' h' inv',
       (0 < minElementSize)%Q →
       (width (getElementVisibilityAndBoundingBox d' h') == 0)%Q
       ∨ (height (getElementVisibilityAndBoundingBox d' h') == 0)%Q →
       examineElement d' h' inv' = (Continue, inv')).
Proof.
  intros Hel Hhidden.
  assert (isVisible (getElementVisibilityAndBoundingBox d h) = false) as Hvis.
  { rewrite (visibility_of_element _ _ _ Hel).
    destruct (bool_decide (CallBoundingBox ∈ faults el)); [done|].
    destruct (boundingBox el); [|done].
    destruct (bool_decide (CallIsVisible ∈ faults el)); [done|].
    simpl. by apply notRendered_invisible. }
  assert (qualifies (getElementVisibilityAndBoundingBox d h) = false) as Hq.
  { unfold qualifies. by rewrite Hvis. }
  split_and!; try done.
  - by apply examineElement_skip.
  - intros contentFrame rest. rewrite traverseElements_cons.
    by rewrite examineElement_skip.
  - intros d' h' [Hnone|(el' & Hel' & Hfault)].
    + by apply visibility_of_missing.
    + rewrite (visibility_of_element _ _ _ Hel').
      destruct Hfault as [Hb|[Hb|Hv]].
      * by rewrite bool_decide_eq_true_2.
      * rewrite Hb. by destruct (bool_decide _).
      * destruct (bool_decide (CallBoundingBox ∈ faults el')); [done|].
        destruct (boundingBox el'); [|done]. by rewrite bool_decide_eq_true_2.
  - intros d' h' inv' inv'' Hp. apply qualifies_spec.
    by eapply examineElement_proceed.
  - intros d' h' inv' Hnot. apply examineElement_skip.
    apply not_true_is_false. intros Hq'. apply Hnot. by apply qualifies_spec.
  - intros d' h' inv' Hmin Hzero. apply examineElement_skip.
    apply not_true_is_false. intros (_ & Hw & Hh)%qualifies_spec.
    destruct Hzero as [Hz|Hz]; rewrite Hz in *;
      eapply Qlt_not_le; eassumption.
Qed.

(** ** A pass as a list of writes *)

Lemma applyOps_app ops1 ops2 inv :
  applyOps (ops1 ++ ops2) inv = applyOps ops2 (applyOps ops1 inv).
Proof. unfold applyOps. apply foldl_app. Qed.

Lemma try_catch_same {A} (r : Result A) (a : A) :
  (∀ b, r = Ok b → b = a) → try_catch r a = a.
Proof. destruct r as [b|]; simpl; auto. Qed.

Lemma prioritizeChild_ops d element inv :
  prioritizeChild d element inv = applyOps (parentOps d element) inv.
Proof.
  unfold prioritizeChild, parentOps, parentOf.
  destruct (call d element CallParentElement _) as [[parent|]|]; simpl; try done.
  rewrite try_catch_same.
  2:{ intros b. unfold call. destruct (d !! parent); [|done].
      destruct (bool_decide _); congruence. }
  destruct (generateCssLocator d parent) as [parentLocator|]; [|done].
  fold (qualifies (getElementVisibilityAndBoundingBox d parent)).
  destruct (JS.truthy parentLocator); simpl; [|done].
  destruct (qualifies _); simpl.
  - destruct (inv !! parentLocator) as [e|] eqn:Hin.
    + by rewrite bool_decide_eq_true_2.
    + rewrite bool_decide_eq_false_2 by (intros [? ?]; congruence).
      by rewrite delete_id.
  - by destruct (bool_decide _).
Qed.

Lemma validateAndRecord_ops d element locator inv :
  validateAndRecord d element locator inv
  = applyOps (recordOps d element locator) inv.
Proof.
  unfold validateAndRecord, recordOps.
  destruct (locatorCount d locator) as [count|]; simpl; [|done].
  destruct (0 <? count); simpl; [|done].
  by destruct (getElementName d element nameMaxLength).
Qed.

Lemma examineElement_ops d element inv :
  examineElement d element inv =
  match elementOps d element with
  | None => (Continue, inv)
  | Some ops => (Proceed, applyOps ops inv)
  end.
Proof.
  unfold examineElement, elementOps. rewrite gate_qualifies.
  destruct (qualifies _); simpl; [|done].
  destruct (generateCssLocator d element) as [locator|]; [|done].
  destruct (JS.truthy locator); simpl; [|done].
  by rewrite applyOps_app, prioritizeChild_ops, validateAndRecord_ops.
Qed.

(** A pass ends the way its trace says and leaves the inventory its
    writes produce. *)
Lemma traverse_trace context :
  ∀ inv, traverseAndExtract context inv
         = (fst (trace context), applyOps (snd (trace context)) inv).
Proof.
  induction context as [d|d elements IH] using Frame_nested_ind; [done|].
  fold (traceElements d elements).
  intros inv. fold (traverseElements d elements inv). revert inv.
  induction IH as [|[element contentFrame] rest Hframe _ IHrest]; intros inv.
  { done. }
  rewrite traverseElements_cons, traceElements_cons, examineElement_ops.
  destruct (elementOps d element) as [ops|]; [|apply IHrest].
  destruct contentFrame as [[frameElement|]|]; simpl in Hframe.
  - rewrite Hframe. destruct (trace frameElement) as [[|] inner]; simpl.
    + rewrite IHrest. destruct (traceElements d rest) as [c later]; simpl.
      by rewrite !applyOps_app.
    + by rewrite applyOps_app.
  - rewrite IHrest. destruct (traceElements d rest) as [c later]; simpl.
    by rewrite applyOps_app.
  - done.
Qed.

Lemma applyOps_lookup ops inv key :
  applyOps ops inv !! key = opsAt key ops (inv !! key).
Proof.
  revert inv. induction ops as [|op ops IH]; intros inv; [done|].
  unfold applyOps, opsAt in *. simpl. rewrite IH. f_equal.
  destruct op as [key' value|key']; simpl.
  - rewrite lookup_insert. by destruct (decide (key' = key)); 
      [rewrite bool_decide_eq_true_2|rewrite bool_decide_eq_false_2].
  - rewrite lookup_delete. by destruct (decide (key' = key)); 
      [rewrite bool_decide_eq_true_2|rewrite bool_decide_eq_false_2].
Qed.

(** The writes either leave the entry of a key alone or decide it. *)
Lemma opsAt_fixed_or_constant key ops :
  (∀ entry, opsAt key ops entry = entry)
  ∨ (∃ final, ∀ entry, opsAt key ops entry = final).
Proof.
  induction ops as [|op ops IH]; [by left|].
  unfold opsAt in *. simpl.
  destruct IH as [Hid|[final Hconst]]; [|right; exists final; by intros].
  destruct op as [key' value|key']; simpl;
    destruct (bool_decide (key' = key)).
  - right. exists (Some value). intros. apply Hid.
  - left. intros. apply Hid.
  - right. exists None. intros. apply Hid.
  - left. intros. apply Hid.
Qed.

Lemma applyOps_idempotent ops inv :
  applyOps ops (applyOps ops inv) = applyOps ops inv.
Proof.
  apply map_eq. intros key. rewrite !applyOps_lookup.
  destruct (opsAt_fixed_or_constant key ops) as [Hid|[final Hconst]].
  - by rewrite !Hid.
  - by rewrite !Hconst.
Qed.

(** An entry after the writes was there before or is one of them. *)
Lemma applyOps_origin ops inv key value :
  applyOps ops inv !! key = Some value →
  inv !! key = Some value ∨ OpSet key value ∈ ops.
Proof.
  revert inv. induction ops as [|op ops IH]; intros inv; [by left|].
  unfold applyOps in *. simpl. intros Hfinal.
  destruct (IH _ Hfinal) as [Hstep|Hlater]; [|right; by constructor].
  destruct op as [key' value'|key']; simpl in Hstep.
  - destruct (decide (key' = key)) as [->|Hne].
    + rewrite lookup_insert_eq in Hstep. injection Hstep as ->.
      right. constructor.
    + rewrite lookup_insert_ne in Hstep by done. by left.
  - destruct (decide (key' = key)) as [->|Hne].
    + by rewrite lookup_delete_eq in Hstep.
    + rewrite lookup_delete_ne in Hstep by done. by left.
Qed.


(** C5.  A second pass over the same snapshot ends the way the first
    did and leaves the inventory that the first left, whatever the
    inventory before the first pass was. *)
Theorem pass_idempotent page inv :
  traverseAndExtract page (snd (traverseAndExtract page inv))
  = traverseAndExtract page inv.
Proof. rewrite !traverse_trace. simpl. by rewrite applyOps_idempotent. Qed.

(** ** Name extractor *)

(** The result of the name function is the cut of a trimmed text or of
    the fallback name. *)
Lemma nameFn_cut d el n s :
  nameFn d el n = Ok s →
  ∃ t, s = JS.substring0 n t ∧ (JS.trim t = t ∨ t = fallbackName el).
Proof.
  unfold nameFn, querySelector. intros Hs.
  assert (∀ t, ∃ t', JS.substring0 n (JS.trim t) = JS.substring0 n t'
                     ∧ (JS.trim t' = t' ∨ t' = fallbackName el)) as Hcut.
  { intros t. exists (JS.trim t). split; [done|]. left. apply trim_trim. }
  destruct (JS.truthy (Element.id el)); simpl in Hs;
    [destruct (querySelectorAll d _) as [found|]; simpl in Hs; [|done]|];
    revert Hs; generalize (parentElement el ≫= (d !!.));
    intros parent Hs; repeat case_match; simplify_eq;
    try apply Hcut; try (rewrite substring0_min; apply Hcut); eauto.
Qed.

Lemma getElementName_cut d h n s :
  getElementName d h n = Ok s →
  ∃ el t, d !! h = Some el ∧ s = JS.substring0 n t
          ∧ (JS.trim t = t ∨ t = fallbackName el).
Proof.
  unfold getElementName, call. destruct (d !! h) as [el|]; [|done].
  destruct (bool_decide _); [done|]. intros Hs.
  destruct (nameFn_cut _ _ _ _ Hs) as (t & -> & Ht). eauto.
Qed.


(** ** What a pass records *)

Lemma recordOps_written d element locator' key value :
  OpSet key value ∈ recordOps d element locator' →
  key = locator' ∧ locator value = key ∧ 1 ≤ count value
  ∧ locatorCount d key = Ok (count value)
  ∧ getElementName d element nameMaxLength = Ok (name value).
Proof.
  unfold recordOps.
  destruct (locatorCount d locator') as [n|] eqn:Hcount; [|set_solver].
  destruct (0 <? n) eqn:Hn; [|set_solver].
  destruct (getElementName d element nameMaxLength) as [nm|] eqn:Hname;
    [|set_solver].
  intros Hin. apply list_elem_of_singleton in Hin. injection Hin as -> ->.
  simpl. apply Nat.ltb_lt in Hn. split_and!; auto; lia.
Qed.

Lemma parentOps_no_record d element : recorded (parentOps d element) = [].
Proof. unfold parentOps. by repeat case_match. Qed.

Lemma elementOps_written d element ops key value :
  elementOps d element = Some ops →
  OpSet key value ∈ ops →
  locator value = key ∧ 1 ≤ count value
  ∧ locatorCount d key = Ok (count value)
  ∧ getElementName d element nameMaxLength = Ok (name value).
Proof.
  unfold elementOps. repeat case_match; try done. intros [= <-].
  rewrite elem_of_app. intros [Hp|Hr].
  - exfalso. assert (key ∈ recorded (parentOps d element)) as Hk.
    { unfold recorded. apply list_elem_of_omap. eauto. }
    rewrite parentOps_no_record in Hk. set_solver.
  - apply recordOps_written in Hr as (-> & ? & ? & ? & ?). done.
Qed.

Lemma documents_here d elements : d ∈ documents (mkFrame d elements).
Proof. destruct elements; simpl; set_solver. Qed.

Lemma documents_below d elements element frameElement d' :
  (element, Ok (Some frameElement)) ∈ elements →
  d' ∈ documents frameElement →
  d' ∈ documents (mkFrame d (Ok elements)).
Proof.
  intros Hin Hd. simpl. apply elem_of_cons. right.
  apply list_elem_of_bind. eexists. split; [|exact Hin]. done.
Qed.

Lemma documents_rest d candidate rest d' :
  d' ∈ documents (mkFrame d (Ok rest)) →
  d' ∈ documents (mkFrame d (Ok (candidate :: rest))).
Proof.
  simpl. rewrite !elem_of_cons. intros [->|Hin]; [by left|right].
  apply elem_of_app. by right.
Qed.

Lemma written_rest d candidate rest key value :
  written (mkFrame d (Ok rest)) key value →
  written (mkFrame d (Ok (candidate :: rest))) key value.
Proof.
  intros (Hl & Hc & d' & element & Hd & Hrest).
  split_and!; [done..|]. exists d', element. split; [|done].
  by apply documents_rest.
Qed.

Lemma trace_written page key value :
  OpSet key value ∈ snd (trace page) → written page key value.
Proof.
  induction page as [d|d elements IH] using Frame_nested_ind.
  { simpl. set_solver. }
  fold (traceElements d elements).
  induction IH as [|[element contentFrame] rest Hframe _ IHrest].
  { simpl. set_solver. }
  rewrite traceElements_cons.
  assert (∀ ops, elementOps d element = Some ops → OpSet key value ∈ ops →
            written (mkFrame d (Ok ((element, contentFrame) :: rest))) key value)
    as Hhere.
  { intros ops Hops Hin.
    destruct (elementOps_written _ _ _ _ _ Hops Hin) as (? & ? & ? & ?).
    split_and!; [done..|]. exists d, element. split; [|done].
    apply documents_here. }
  assert (∀ frameElement, contentFrame = Ok (Some frameElement) →
            written frameElement key value →
            written (mkFrame d (Ok ((element, contentFrame) :: rest))) key value)
    as Hinner.
  { intros frameElement -> (Hl & Hc & d' & element' & Hd & Hrest).
    split_and!; [done..|]. exists d', element'. split; [|done].
    eapply documents_below; [|exact Hd]. constructor. }
  destruct (elementOps d element) as [ops|] eqn:Hops.
  2:{ intros Hin. by apply written_rest, IHrest. }
  destruct contentFrame as [[frameElement|]|]; simpl in Hframe.
  - destruct (trace frameElement) as [[|] inner]; simpl in *.
    + destruct (traceElements d rest) as [c later]; simpl in *.
      rewrite !elem_of_app. intros [Hin|[Hin|Hin]]; eauto using written_rest.
    + rewrite !elem_of_app. intros [Hin|Hin]; eauto.
  - destruct (traceElements d rest) as [c later]; simpl in *.
    rewrite !elem_of_app. intros [Hin|Hin]; eauto using written_rest.
  - simpl. eauto.
Qed.

(** An entry after a pass was there before or was written by it. *)
Lemma traverse_origin page inv key value :
  snd (traverseAndExtract page inv) !! key = Some value →
  inv !! key = Some value ∨ written page key value.
Proof.
  rewrite traverse_trace. simpl. intros Hfinal.
  destruct (applyOps_origin _ _ _ _ Hfinal) as [?|Hin]; [by left|right].
  by apply trace_written.
Qed.

Lemma validateAndRecord_no_match d element locator' inv :
  locatorCount d locator' = Ok 0 ∨ locatorCount d locator' = Throw →
  validateAndRecord d element locator' inv = inv.
Proof. unfold validateAndRecord. by intros [->| ->]. Qed.

(** ** Sessions *)

Lemma run_cons s e es : run (step s e) es = run s (e :: es).
Proof. reflexivity. Qed.

Lemma start_inventory s :
  allFoundElements (startDynamicElementObservation s) = allFoundElements s.
Proof.
  unfold startDynamicElementObservation. by destruct (pollingIntervalId s).
Qed.

Lemma stop_inventory s :
  allFoundElements (stopObservation s) = allFoundElements s.
Proof. unfold stopObservation. simpl. by destruct (pollingIntervalId s). Qed.

Lemma pulse_inventory page timer s :
  allFoundElements (pulse page timer s) = allFoundElements s
  ∨ allFoundElements (pulse page timer s)
    = snd (traverseAndExtract page (allFoundElements s)).
Proof.
  unfold pulse. destruct (bool_decide _); [|by left].
  destruct (stopPolling s); [|by right].
  left. by destruct (pollingIntervalId s).
Qed.

Lemma extract_inventory page s0 :
  extractVisibleElementLocators page = Ok s0 →
  allFoundElements s0 = snd (traverseAndExtract page ∅)
  ∧ pollingIntervalId s0 = Some 0 ∧ activeTimers s0 = {[0]}
  ∧ stopPolling s0 = false.
Proof.
  unfold extractVisibleElementLocators.
  destruct (traverseAndExtract page ∅) as [[|] found]; [|done].
  intros [= <-]. simpl. split_and!; try done; set_solver.
Qed.

(** A property of entries that every written entry has holds of all
    entries of a session as long as it held at the start. *)
Lemma run_entries (Φ : string → ExtractedLocator → Prop) es :
  ∀ s,
    (∀ page key value, page ∈ pagesOf es → written page key value → Φ key value) →
    map_Forall Φ (allFoundElements s) →
    map_Forall Φ (allFoundElements (run s es)).
Proof.
  induction es as [|e es IH]; intros s Hw Hs; [done|].
  rewrite <- run_cons. apply IH.
  { intros page key value Hin. apply Hw. unfold pagesOf in *. simpl.
    destruct e; set_solver. }
  destruct e as [|timer page|]; cbn [step].
  - by rewrite start_inventory.
  - destruct (pulse_inventory page timer s) as [-> | ->]; [done|].
    intros key value Hfinal.
    destruct (traverse_origin _ _ _ _ Hfinal) as [Hold|Hnew].
    + by apply Hs.
    + eapply Hw; [|exact Hnew]. unfold pagesOf. simpl. set_solver.
  - by rewrite stop_inventory.
Qed.

Lemma session_entries page s0 es key value :
  extractVisibleElementLocators page = Ok s0 →
  allFoundElements (run s0 es) !! key = Some value →
  ∃ page', page' ∈ page :: pagesOf es ∧ written page' key value.
Proof.
  intros Hs0 Hfinal.
  apply (run_entries
           (λ key value,
              ∃ page', page' ∈ page :: pagesOf es ∧ written page' key value)
           es s0); [| |exact Hfinal].
  - intros page' key' value' Hin Hw. exists page'. set_solver.
  - destruct (extract_inventory _ _ Hs0) as (-> & _).
    intros key' value' Hfirst.
    destruct (traverse_origin _ _ _ _ Hfirst) as [Hold|Hnew]; [done|].
    exists page. set_solver.
Qed.

Lemma prioritizeChild_absent d element inv key :
  inv !! key = None → prioritizeChild d element inv !! key = None.
Proof.
  intros Hnone. rewrite prioritizeChild_ops.
  destruct (applyOps (parentOps d element) inv !! key) as [value|] eqn:Hl;
    [|done].
  destruct (applyOps_origin _ _ _ _ Hl) as [?|Hin]; [congruence|].
  assert (key ∈ recorded (parentOps d element)) as Hk.
  { unfold recorded. apply list_elem_of_omap. eauto. }
  rewrite parentOps_no_record in Hk. set_solver.
Qed.

(** C3.  A locator that matches nothing when it is validated is not
    recorded: the validation step leaves the inventory as it is, and the
    loop body of an element that generates such a locator does not
    create an entry under it.  Every entry present after a pass was
    present before it or was written by it, with the key as its locator
    and with the count, at least 1, that the locator engine reported in
    a document of the page; so every entry of a session, after any
    calls and pulses, was written that way by the first pass or by the
    pass of a pulse. *)
Theorem unmatched_locator_not_recorded d element locator' inv :
  locatorCount d locator' = Ok 0 →
  validateAndRecord d element locator' inv = inv
  ∧ (generateCssLocator d element = Some locator' →
     inv !! locator' = None →
     snd (examineElement d element inv) !! locator' = None)
  ∧ (∀ page inv' key value,
       snd (traverseAndExtract page inv') !! key = Some value →
       inv' !! key = Some value
       ∨ (written page key value ∧ locator value = key ∧ 1 ≤ count value))
  ∧ (∀ page s0 es key value,
       extractVisibleElementLocators page = Ok s0 →
       allFoundElements (run s0 es) !! key = Some value →
       locator value = key ∧ 1 ≤ count value
       ∧ ∃ page', page' ∈ page :: pagesOf es ∧ written page' key value).
Proof.
  intros Hcount. split_and!.
  - apply validateAndRecord_no_match. by left.
  - intros Hgen Hnone. unfold examineElement.
    destruct (_ || _); [done|]. rewrite Hgen.
    destruct (negb _); [done|]. simpl.
    rewrite validateAndRecord_no_match by (by left).
    by apply prioritizeChild_absent.
  - intros page inv' key value Hfinal.
    destruct (traverse_origin _ _ _ _ Hfinal) as [?|Hw]; [by left|right].
    destruct Hw as (? & ? & ?). by split_and!.
  - intros page s0 es key value Hs0 Hfinal.
    destruct (session_entries _ _ _ _ _ Hs0 Hfinal) as (page' & Hin & Hw).
    destruct Hw as (? & ? & ?). split_and!; [done..|].
    exists page'. by split_and!.
Qed.



(** ** The polling loop *)

Lemma oneTimer_start s : oneTimer s → oneTimer (startDynamicElementObservation s).
Proof.
  unfold oneTimer, startDynamicElementObservation.
  destruct (pollingIntervalId s) as [id|]; simpl; intros ->; set_solver.
Qed.

Lemma oneTimer_stop s : oneTimer s → oneTimer (stopObservation s).
Proof.
  unfold oneTimer, stopObservation. simpl.
  destruct (pollingIntervalId s) as [id|]; simpl; intros ->; set_solver.
Qed.

Lemma oneTimer_pulse page timer s : oneTimer s → oneTimer (pulse page timer s).
Proof.
  unfold oneTimer, pulse. intros Hs.
  destruct (bool_decide _); [|done].
  destruct (stopPolling s); [|done].
  destruct (pollingIntervalId s) as [id|] eqn:Hid; simpl.
  - rewrite Hs. set_solver.
  - by rewrite Hid.
Qed.

Lemma oneTimer_step s e : oneTimer s → oneTimer (step s e).
Proof.
  destruct e; cbn [step];
    auto using oneTimer_start, oneTimer_stop, oneTimer_pulse.
Qed.

Lemma oneTimer_run es : ∀ s, oneTimer s → oneTimer (run s es).
Proof.
  induction es as [|e es IH]; intros s Hs; [done|].
  rewrite <- run_cons. by apply IH, oneTimer_step.
Qed.

Lemma oneTimer_size s : oneTimer s → size (activeTimers s) ≤ 1.
Proof.
  unfold oneTimer. intros ->. destruct (pollingIntervalId s).
  - rewrite size_singleton. lia.
  - rewrite size_empty. lia.
Qed.

Lemma stop_stops s :
  oneTimer s →
  stopPolling (stopObservation s) = true
  ∧ pollingIntervalId (stopObservation s) = None
  ∧ activeTimers (stopObservation s) = ∅
  ∧ passes (stopObservation s) = passes s.
Proof.
  unfold oneTimer, stopObservation. simpl.
  destruct (pollingIntervalId s) as [id|] eqn:Hid; simpl; intros Hs;
    split_and!; try done; set_solver.
Qed.

(** Once the flag is set no call and no pulse starts a traversal or
    touches the inventory, and the flag stays set. *)
Lemma stopped_step s e :
  stopPolling s = true →
  stopPolling (step s e) = true
  ∧ passes (step s e) = passes s
  ∧ allFoundElements (step s e) = allFoundElements s.
Proof.
  intros Hs. destruct e as [|timer page|]; cbn [step].
  - unfold startDynamicElementObservation.
    by destruct (pollingIntervalId s).
  - unfold pulse. destruct (bool_decide _); [|done]. rewrite Hs.
    by destruct (pollingIntervalId s).
  - unfold stopObservation. simpl. by destruct (pollingIntervalId s).
Qed.

Lemma stopped_run es :
  ∀ s, stopPolling s = true →
       stopPolling (run s es) = true
       ∧ passes (run s es) = passes s
       ∧ allFoundElements (run s es) = allFoundElements s.
Proof.
  induction es as [|e es IH]; intros s Hs; [done|].
  rewrite <- run_cons.
  destruct (stopped_step s e Hs) as (Hflag & Hp & Hinv).
  destruct (IH _ Hflag) as (? & ? & ?). split_and!; congruence.
Qed.

Lemma stop_idempotent s :
  stopObservation (stopObservation s) = stopObservation s.
Proof.
  destruct s as [inv [id|] flag timers next n]; reflexivity.
Qed.

(** C8.  In every state of a session, after any calls and pulses: the
    runtime holds at most one interval timer, the one the session
    remembers.  Starting again clears that timer before a new one is
    installed, so that only the new one is active.  After
    [stopObservation] no timer is active and none is remembered, and
    whatever happens next no pulse starts a traversal: the count of
    started passes and the inventory stay as they were.  Stopping twice
    leaves the state that stopping once leaves. *)
Theorem observation_loop page s0 es :
  extractVisibleElementLocators page = Ok s0 →
  oneTimer (run s0 es)
  ∧ size (activeTimers (run s0 es)) ≤ 1
  ∧ (pollingIntervalId (startDynamicElementObservation (run s0 es))
       = Some (nextTimer (run s0 es))
     ∧ activeTimers (startDynamicElementObservation (run s0 es))
       = {[nextTimer (run s0 es)]}
     ∧ activeTimers (startDynamicElementObservation
                       (startDynamicElementObservation (run s0 es)))
       = {[S (nextTimer (run s0 es))]})
  ∧ (stopPolling (stopObservation (run s0 es)) = true
     ∧ pollingIntervalId (stopObservation (run s0 es)) = None
     ∧ activeTimers (stopObservation (run s0 es)) = ∅)
  ∧ (∀ es',
       passes (run (stopObservation (run s0 es)) es') = passes (run s0 es)
       ∧ allFoundElements (run (stopObservation (run s0 es)) es')
         = allFoundElements (run s0 es)
       ∧ size (activeTimers (run (stopObservation (run s0 es)) es')) ≤ 1)
  ∧ stopObservation (stopObservation (run s0 es)) = stopObservation (run s0 es).
Proof.
  intros Hs0.
  assert (oneTimer s0) as H0.
  { destruct (extract_inventory _ _ Hs0) as (_ & Hid & Htimers & _).
    unfold oneTimer. by rewrite Hid, Htimers. }
  pose proof (oneTimer_run es s0 H0) as Hs.
  destruct (stop_stops _ Hs) as (Hflag & Hid & Htimers & Hpasses).
  split_and!; try done.
  - by apply oneTimer_size.
  - unfold startDynamicElementObservation.
    by destruct (pollingIntervalId (run s0 es)).
  - pose proof (oneTimer_start _ Hs) as Hs1. unfold oneTimer in Hs1.
    rewrite Hs1. unfold startDynamicElementObservation.
    by destruct (pollingIntervalId (run s0 es)).
  - pose proof (oneTimer_start _ (oneTimer_start _ Hs)) as Hs2.
    unfold oneTimer in Hs2. rewrite Hs2.
    unfold startDynamicElementObservation at 1.
    destruct (pollingIntervalId (startDynamicElementObservation (run s0 es)));
      simpl; unfold startDynamicElementObservation;
      by destruct (pollingIntervalId (run s0 es)).
  - intros es'.
    destruct (stopped_run es' _ Hflag) as (_ & Hp & Hinv).
    split_and!.
    + by rewrite Hp.
    + by rewrite Hinv, stop_inventory.
    + apply oneTimer_size, oneTimer_run, oneTimer_stop, Hs.
  - apply stop_idempotent.
Qed.

(** ** Failures of single candidates *)

Lemma settled_cons d candidate rest :
  settled (mkFrame d (Ok (candidate :: rest))) =
  match elementOps d (fst candidate) with
  | None => true
  | Some _ =>
      match snd candidate with
      | Ok (Some frameElement) => settled frameElement
      | Ok None => true
      | Throw => false
      end
  end && settled (mkFrame d (Ok rest)).
Proof. reflexivity. Qed.

(** A pass ends normally exactly when what it asks of its contexts
    settles. *)
Lemma trace_normal_iff page : fst (trace page) = Normal ↔ settled page = true.
Proof.
  induction page as [d|d elements IH] using Frame_nested_ind; [done|].
  fold (traceElements d elements).
  induction IH as [|[element contentFrame] rest Hframe _ IHrest]; [done|].
  rewrite settled_cons, traceElements_cons, andb_true_iff. simpl.
  destruct (elementOps d element) as [ops|]; [|tauto].
  destruct contentFrame as [[frameElement|]|]; simpl in *.
  - rewrite <- Hframe, <- IHrest.
    destruct (trace frameElement) as [[|] inner]; simpl.
    + destruct (traceElements d rest) as [c later]; simpl. tauto.
    + split; [done|]. by intros [? _].
  - rewrite <- IHrest.
    destruct (traceElements d rest) as [c later]; simpl. tauto.
  - split; [done|]. by intros [? _].
Qed.

Lemma traverse_normal_iff page inv :
  fst (traverseAndExtract page inv) = Normal ↔ settled page = true.
Proof. rewrite traverse_trace. apply trace_normal_iff. Qed.

Lemma visitsElements_cons d element contentFrame rest :
  visitsElements d ((element, contentFrame) :: rest) =
  (d, element) ::
  match elementOps d element, contentFrame with
  | Some _, Ok (Some frameElement) => visits frameElement ++ visitsElements d rest
  | _, _ => visitsElements d rest
  end.
Proof. reflexivity. Qed.

Lemma examineAll_cons inv d element vs :
  examineAll inv ((d, element) :: vs)
  = examineAll (snd (examineElement d element inv)) vs.
Proof. reflexivity. Qed.

Lemma examineAll_app inv vs1 vs2 :
  examineAll inv (vs1 ++ vs2) = examineAll (examineAll inv vs1) vs2.
Proof. unfold examineAll. apply foldl_app. Qed.

(** A pass over a settled context ends normally, having examined all
    the candidates it visits. *)
Lemma settled_traverse page :
  settled page = true →
  ∀ inv, traverseAndExtract page inv = (Normal, examineAll inv (visits page)).
Proof.
  induction page as [d|d elements IH] using Frame_nested_ind; [done|].
  fold (visitsElements d elements).
  intros Hsettled inv. fold (traverseElements d elements inv).
  revert Hsettled inv.
  induction IH as [|[element contentFrame] rest Hframe _ IHrest];
    intros Hsettled inv; [done|].
  rewrite settled_cons in Hsettled. apply andb_true_iff in Hsettled as [Hc Hr].
  rewrite traverseElements_cons, visitsElements_cons, examineAll_cons.
  rewrite examineElement_ops. simpl in Hc.
  destruct (elementOps d element) as [ops|]; simpl; [|by apply IHrest].
  destruct contentFrame as [[frameElement|]|]; simpl in *; [| |done].
  - rewrite (Hframe Hc). rewrite examineAll_app. by apply IHrest.
  - by apply IHrest.
Qed.






(** ** Parent and child *)



Lemma traceElements_app d pre post :
  traceElements d (pre ++ post) =
  match traceElements d pre with
  | (Normal, ops) => let '(c, later) := traceElements d post in (c, ops ++ later)
  | (Abrupt, ops) => (Abrupt, ops)
  end.
Proof.
  induction pre as [|[element contentFrame] pre IH].
  { rewrite traceElements_nil. cbn [app]. by destruct (traceElements d post). }
  rewrite <- app_comm_cons, !traceElements_cons.
  destruct (elementOps d element) as [ops|]; [|done].
  destruct contentFrame as [[frameElement|]|]; [| |done].
  - destruct (trace frameElement) as [[|] inner]; [|done].
    rewrite IH. destruct (traceElements d pre) as [[|] ops1]; [|done].
    destruct (traceElements d post) as [c later].
    by rewrite <- !app_assoc.
  - rewrite IH. destruct (traceElements d pre) as [[|] ops1]; [|done].
    destruct (traceElements d post) as [c later].
    by rewrite <- !app_assoc.
Qed.



(** C9.  When the parent of a qualifying candidate resolves, has a
    locator that is in the inventory and qualifies, its entry is deleted
    before the candidate's locator is counted.  If the count is then 0
    or rejects, nothing is recorded: the loop body leaves the inventory
    with the parent's entry gone, one entry smaller, and with whatever
    it held under the candidate's own locator. *)
Theorem parent_removed_without_replacement d element lc parent lp inv :
  qualifies (getElementVisibilityAndBoundingBox d element) = true →
  generateCssLocator d element = Some lc → lc ≠ EmptyString →
  parentOf d element = Ok (Some parent) →
  generateCssLocator d parent = Some lp → lp ≠ EmptyString →
  is_Some (inv !! lp) →
  qualifies (getElementVisibilityAndBoundingBox d parent) = true →
  locatorCount d lc = Ok 0 ∨ locatorCount d lc = Throw →
  prioritizeChild d element inv = delete lp inv
  ∧ validateAndRecord d element lc (delete lp inv) = delete lp inv
  ∧ examineElement d element inv = (Proceed, delete lp inv)
  ∧ delete lp inv !! lp = None
  ∧ (lc ≠ lp → delete lp inv !! lc = inv !! lc)
  ∧ S (size (delete lp inv)) = size inv.
Proof.
  intros Hq Hlc Hne Hparent Hlp Hnep [value Hin] Hqp Hcount.
  assert (prioritizeChild d element inv = delete lp inv) as Hprio.
  { rewrite prioritizeChild_ops. unfold parentOps.
    rewrite Hparent, Hlp, Hqp. apply truthy_nonempty in Hnep.
    by rewrite Hnep. }
  assert (validateAndRecord d element lc (delete lp inv) = delete lp inv)
    as Hval by by apply validateAndRecord_no_match.
  split_and!; try done.
  - unfold examineElement. rewrite gate_qualifies, Hq, Hlc. simpl.
    apply truthy_nonempty in Hne. rewrite Hne. simpl.
    by rewrite Hprio, Hval.
  - apply lookup_delete_eq.
  - intros Hdiff. by apply lookup_delete_ne.
  - rewrite map_size_delete, Hin.
    assert (size inv ≠ 0) as Hpos.
    { intros Hz. apply map_size_empty_iff in Hz. subst inv.
      by rewrite lookup_empty in Hin. }
    simpl. lia.
Qed.

(** ** Locator generator *)

Lemma append_empty_r s : s +:+ EmptyString = s.
Proof. induction s as [|c s IH]; [done|]. by rewrite append_cons, IH. Qed.

Lemma startsWith_refl s : startsWith s s.
Proof. exists EmptyString. by rewrite append_empty_r. Qed.

Lemma startsWith_append p s t : startsWith p s → startsWith p (s +:+ t).
Proof. intros [rest ->]. exists (rest +:+ t). apply append_assoc. Qed.

Lemma startsWith_nonempty p s : p ≠ EmptyString → startsWith p s → s ≠ EmptyString.
Proof. intros Hp [rest ->]. by apply append_nonempty_l. Qed.

Lemma attributeSelector_nonempty attr value :
  attributeSelector attr value ≠ EmptyString.
Proof. unfold attributeSelector. by apply append_nonempty_l. Qed.

Lemma structuralSelector_tag el :
  startsWith (JS.toLowerCase (tagName el)) (structuralSelector el).
Proof.
  unfold structuralSelector.
  repeat case_match;
    repeat apply startsWith_append; apply startsWith_refl.
Qed.

Lemma nthOfType_selector d self el selector :
  startsWith selector (nthOfType d self el selector).
Proof.
  unfold nthOfType.
  destruct (querySelectorAll d selector) as [found|]; simpl;
    repeat case_match;
    repeat apply startsWith_append; apply startsWith_refl.
Qed.

Lemma cssLocatorFn_nonempty d self el s :
  tagName el ≠ EmptyString →
  cssLocatorFn d self el = Ok s → s ≠ EmptyString.
Proof.
  intros Htag. unfold cssLocatorFn.
  assert (nthOfType d self el (structuralSelector el) ≠ EmptyString) as Hfall.
  { eapply startsWith_nonempty; [by apply toLowerCase_nonempty|].
    destruct (nthOfType_selector d self el (structuralSelector el)) as [r1 ->].
    destruct (structuralSelector_tag el) as [r2 ->].
    eexists. apply append_assoc. }
  destruct (JS.truthy (Element.id el)); simpl;
    [destruct (querySelectorAll d _) as [found|]; simpl; [|done]|];
    repeat case_match; intros [= <-]; simplify_eq;
    auto using attributeSelector_nonempty.
Qed.

(** C10.  For an element with a tag name, an evaluation of the locator
    function that completes yields a string that is not empty; the
    generator returns [null] exactly when the evaluation rejects.  The
    structural fallback begins with the lowercased tag name. *)
Theorem generated_locator_nonempty d h el :
  d !! h = Some el →
  tagName el ≠ EmptyString →
  (∀ s, call d h CallCssLocator (cssLocatorFn d h) = Ok s → s ≠ EmptyString)
  ∧ (∀ s, generateCssLocator d h = Some s → s ≠ EmptyString)
  ∧ (generateCssLocator d h = None
     ↔ call d h CallCssLocator (cssLocatorFn d h) = Throw)
  ∧ startsWith (JS.toLowerCase (tagName el))
               (nthOfType d h el (structuralSelector el))
  ∧ JS.toLowerCase (tagName el) ≠ EmptyString.
Proof.
  intros Hel Htag.
  assert (∀ s, call d h CallCssLocator (cssLocatorFn d h) = Ok s →
               s ≠ EmptyString) as Hcall.
  { intros s. unfold call. rewrite Hel. destruct (bool_decide _); [done|].
    by apply cssLocatorFn_nonempty. }
  split_and!.
  - exact Hcall.
  - intros s. unfold generateCssLocator.
    destruct (call d h CallCssLocator _) as [s'|] eqn:Hs; simpl; [|done].
    intros [= <-]. by apply Hcall.
  - unfold generateCssLocator.
    destruct (call d h CallCssLocator _); simpl; split; congruence.
  - destruct (nthOfType_selector d h el (structuralSelector el)) as [r1 ->].
    destruct (structuralSelector_tag el) as [r2 ->].
    eexists. apply append_assoc.
  - by apply toLowerCase_nonempty.
Qed.

(** C4, as the code has it.  The generator tests the uniqueness of an id
    by counting the matches of the string [#] followed by the id.  For
    an element with a non-empty id that exactly one element of the
    document has, and which both engines read as the selector of the
    elements with that id, the generator returns [#] followed by the
    id when its evaluation does not reject, and the locator validates
    to a count of 1. *)
Theorem unique_id_locator d h el :
  d !! h = Some el →
  CallCssLocator ∉ faults el →
  Element.id el ≠ EmptyString →
  idSelectorDenotes d (Element.id el) →
  length (withId d (Element.id el)) = 1 →
  generateCssLocator d h = Some ("#" +:+ Element.id el)
  ∧ locatorCount d ("#" +:+ Element.id el) = Ok 1.
Proof.
  intros Hel Hfault Hid [Hpage Hdriver] Hone. split.
  - unfold generateCssLocator, call. rewrite Hel.
    rewrite bool_decide_eq_false_2 by done.
    unfold cssLocatorFn. apply truthy_nonempty in Hid. rewrite Hid.
    rewrite Hpage. simpl. by rewrite bool_decide_eq_true_2.
  - by rewrite Hdriver, Hone.
Qed.

(** * Further properties of the code *)

(** ** Visibility evaluator *)

Lemma isActuallyVisible_spec el :
  isActuallyVisible el = true ↔
  display (computedStyle el) ≠ "none"
  ∧ visibility (computedStyle el) ≠ "hidden"
  ∧ (∃ o, opacity (computedStyle el) = Some o ∧ (0 < o)%Q)
  ∧ (0 < offsetWidth el)%Z ∧ (0 < offsetHeight el)%Z.
Proof.
  unfold isActuallyVisible.
  rewrite !andb_true_iff, !bool_decide_eq_true, !Z.ltb_lt.
  assert (JS.gtZero (opacity (computedStyle el)) = true
          ↔ ∃ o, opacity (computedStyle el) = Some o ∧ (0 < o)%Q) as ->.
  { destruct (opacity (computedStyle el)) as [o|]; simpl.
    - rewrite negb_true_iff. split.
      + intros Hle. exists o. split; [done|]. apply Qnot_le_lt.
        intros Hc. apply Qle_bool_iff in Hc. congruence.
      + intros (o' & [= <-] & Hlt). apply not_true_is_false.
        intros Hc%Qle_bool_iff. by apply (Qlt_not_le _ _ Hlt).
    - split; [done|]. by intros (? & ? & _). }
  tauto.
Qed.

(** X1.  The evaluator reports an element visible exactly when its
    handle is live, both calls settle, there is a bounding box and the
    style check passes; the width and height it reports for a visible
    element are those of the box. *)
Theorem visible_iff d h :
  (isVisible (getElementVisibilityAndBoundingBox d h) = true ↔
   ∃ el box,
     d !! h = Some el
     ∧ (CallBoundingBox ∉ faults el) ∧ (CallIsVisible ∉ faults el)
     ∧ boundingBox el = Some box
     ∧ display (computedStyle el) ≠ "none"
     ∧ visibility (computedStyle el) ≠ "hidden"
     ∧ (∃ o, opacity (computedStyle el) = Some o ∧ (0 < o)%Q)
     ∧ (0 < offsetWidth el)%Z ∧ (0 < offsetHeight el)%Z)
  ∧ (∀ el box,
       d !! h = Some el →
       boundingBox el = Some box →
       isVisible (getElementVisibilityAndBoundingBox d h) = true →
       width (getElementVisibilityAndBoundingBox d h) = boxWidth box
       ∧ height (getElementVisibilityAndBoundingBox d h) = boxHeight box).
Proof.
  split; [split|].
  - destruct (d !! h) as [el|] eqn:Hel.
    2:{ by rewrite visibility_of_missing. }
    rewrite (visibility_of_element _ _ _ Hel).
    destruct (bool_decide (CallBoundingBox ∈ faults el)) eqn:Hb; [done|].
    destruct (boundingBox el) as [box|] eqn:Hbox; [|done].
    destruct (bool_decide (CallIsVisible ∈ faults el)) eqn:Hv; [done|].
    simpl. intros Hvis. exists el, box.
    apply bool_decide_eq_false in Hb, Hv.
    pose proof (proj1 (isActuallyVisible_spec el) Hvis) as (? & ? & ? & ? & ?).
    by split_and!.
  - intros (el & box & Hel & Hb & Hv & Hbox & Hstyle).
    rewrite (visibility_of_element _ _ _ Hel), Hbox.
    rewrite !bool_decide_eq_false_2 by done. simpl.
    by apply isActuallyVisible_spec.
  - intros el box Hel Hbox. rewrite (visibility_of_element _ _ _ Hel), Hbox.
    destruct (bool_decide (CallBoundingBox ∈ faults el)); [done|].
    by destruct (bool_decide (CallIsVisible ∈ faults el)).
Qed.

(** ** Locator generator *)

Lemma generateCssLocator_call d h el :
  d !! h = Some el → CallCssLocator ∉ faults el →
  generateCssLocator d h = try_catch (Some <$> cssLocatorFn d h el) None.
Proof.
  intros Hel Hf. unfold generateCssLocator, call.
  by rewrite Hel, bool_decide_eq_false_2.
Qed.

Lemma generateCssLocator_chain d h el :
  d !! h = Some el →
  CallCssLocator ∉ faults el →
  Element.id el = EmptyString
  ∨ (∃ found, querySelectorAll d ("#" +:+ Element.id el) = Ok found
              ∧ length found ≠ 1) →
  generateCssLocator d h =
  Some match List.find (Element.attributeSet el) locatorAttributes with
       | Some attr => attributeSelector attr (Element.attribute el attr)
       | None => nthOfType d h el (structuralSelector el)
       end.
Proof.
  intros Hel Hf Hid. rewrite (generateCssLocator_call _ _ _ Hel Hf).
  unfold cssLocatorFn.
  assert ((if JS.truthy (Element.id el)
           then found ← querySelectorAll d ("#" +:+ Element.id el);
                Ok (if bool_decide (length found = 1)
                    then Some ("#" +:+ Element.id el) else None)
           else Ok None) = Ok None) as ->.
  { destruct Hid as [-> | (found & -> & Hn)]; [done|].
    destruct (JS.truthy _); [|done]. simpl.
    by rewrite bool_decide_eq_false_2. }
  simpl. unfold locatorAttributes. simpl.
  by repeat destruct (Element.attributeSet el _).
Qed.

(** X2.  When the id does not give a selector (there is none, or the
    test finds no or several matches), the locator is the attribute
    selector of the first of [data-testid], [data-test-id] and [name]
    that is set, whatever classes, role or type the element has; when
    none is set it is the structural selector with its positional
    suffix.  The loop body then goes on to validation. *)
Theorem locator_attribute_priority d h el inv :
  d !! h = Some el →
  CallCssLocator ∉ faults el →
  Element.id el = EmptyString
  ∨ (∃ found, querySelectorAll d ("#" +:+ Element.id el) = Ok found
              ∧ length found ≠ 1) →
  generateCssLocator d h =
  Some match List.find (Element.attributeSet el) locatorAttributes with
       | Some attr => attributeSelector attr (Element.attribute el attr)
       | None => nthOfType d h el (structuralSelector el)
       end
  ∧ (∀ attr,
       List.find (Element.attributeSet el) locatorAttributes = Some attr →
       qualifies (getElementVisibilityAndBoundingBox d h) = true →
       fst (examineElement d h inv) = Proceed).
Proof.
  intros Hel Hf Hid.
  pose proof (generateCssLocator_chain _ _ _ Hel Hf Hid) as Hgen.
  split; [exact Hgen|]. intros attr Hattr Hq.
  unfold examineElement. rewrite gate_qualifies, Hq, Hgen, Hattr. simpl.
  destruct (JS.truthy (attributeSelector attr (Element.attribute el attr))) eqn:Ht;
    [done|].
  exfalso. apply (attributeSelector_nonempty attr (Element.attribute el attr)).
  by destruct (attributeSelector attr (Element.attribute el attr)).
Qed.

(** X3.  An id that is not empty and for which the uniqueness test
    throws makes the generator return [null], whatever other attributes
    the element has; the loop body leaves the element by [continue] and
    records nothing for it. *)
Theorem invalid_id_selector_skips d h el inv :
  d !! h = Some el →
  Element.id el ≠ EmptyString →
  querySelectorAll d ("#" +:+ Element.id el) = Throw →
  generateCssLocator d h = None
  ∧ examineElement d h inv = (Continue, inv).
Proof.
  intros Hel Hid Hthrow.
  assert (generateCssLocator d h = None) as Hnull.
  { unfold generateCssLocator, call. rewrite Hel.
    destruct (bool_decide _); [done|]. unfold cssLocatorFn.
    apply truthy_nonempty in Hid. by rewrite Hid, Hthrow. }
  split; [done|]. unfold examineElement. rewrite Hnull.
  by destruct (_ || _).
Qed.

Lemma indexOf_found l x :
  x ∈ l →
  (0 ≤ JS.indexOf l x < Z.of_nat (length l))%Z
  ∧ l !! Z.to_nat (JS.indexOf l x) = Some x.
Proof.
  induction l as [|y l IH]; [by intros ?%elem_of_nil|].
  intros Hin. simpl. destruct (decide (y = x)) as [->|Hne].
  - rewrite bool_decide_eq_true_2 by done. simpl. split; [lia|done].
  - rewrite bool_decide_eq_false_2 by done.
    apply elem_of_cons in Hin as [?|Hin]; [congruence|].
    destruct (IH Hin) as [Hrange Hat].
    destruct (JS.indexOf l x <? 0)%Z eqn:Hneg; [apply Z.ltb_lt in Hneg; lia|].
    split; [lia|].
    replace (Z.to_nat (JS.indexOf l x + 1)) with (S (Z.to_nat (JS.indexOf l x)))
      by lia.
    done.
Qed.

Lemma child_listed d h el parent :
  d !! h = Some el → parentElement el = Some parent → h ∈ children d parent.
Proof.
  intros Hel Hp. unfold children. apply list_elem_of_filter. split.
  - by rewrite Hel.
  - apply elem_of_seq. apply lookup_lt_Some in Hel. lia.
Qed.

(** X4.  When the selector matches more than one element and the
    element has a parent, the positional suffix is always added: its
    index is the place of the element among the children of the parent
    with its tag name, counted from 1. *)
Theorem positional_suffix d h el parent selector found :
  d !! h = Some el →
  parentElement el = Some parent →
  querySelectorAll d selector = Ok found →
  1 < length found →
  ∃ index,
    nthOfType d h el selector
    = selector +:+ ":nth-of-type(" +:+ JS.showZ index +:+ ")"
    ∧ (1 ≤ index ≤ Z.of_nat (length (sameTagSiblings d el parent)))%Z
    ∧ sameTagSiblings d el parent !! Z.to_nat (index - 1) = Some h.
Proof.
  intros Hel Hp Hfound Hmany.
  assert (h ∈ sameTagSiblings d el parent) as Hin.
  { unfold sameTagSiblings. apply list_elem_of_filter. split.
    - by rewrite Hel.
    - by eapply child_listed. }
  destruct (indexOf_found _ _ Hin) as [Hrange Hat].
  exists (JS.indexOf (sameTagSiblings d el parent) h + 1)%Z.
  split_and!; [|lia|lia|].
  - unfold nthOfType. rewrite Hfound. simpl.
    apply Nat.ltb_lt in Hmany. rewrite Hmany, Hp.
    fold (sameTagSiblings d el parent).
    destruct (0 <? _)%Z eqn:Hpos; [done|]. apply Z.ltb_ge in Hpos. lia.
  - by replace (JS.indexOf (sameTagSiblings d el parent) h + 1 - 1)%Z
      with (JS.indexOf (sameTagSiblings d el parent) h) by lia.
Qed.

Lemma nthOfType_unchanged d h el selector :
  querySelectorAll d selector = Throw
  ∨ (∃ found, querySelectorAll d selector = Ok found ∧ length found ≤ 1)
  ∨ parentElement el = None →
  nthOfType d h el selector = selector.
Proof.
  unfold nthOfType. intros [-> | [(found & -> & Hfew) | Hp]]; [done| |].
  - simpl. by rewrite (proj2 (Nat.ltb_ge _ _) Hfew).
  - destruct (querySelectorAll d selector) as [found|]; simpl; [|done].
    rewrite Hp. by destruct (1 <? length found).
Qed.

(** X5.  For an element without id and without [data-testid],
    [data-test-id] and [name], the generator returns the structural
    selector as it is when the ambiguity test throws, when it finds at
    most one match, and when the element has no parent: a selector that
    the engine rejects is still returned, and it is left to the
    validation to reject it. *)
Theorem structural_selector_returned d h el :
  d !! h = Some el →
  CallCssLocator ∉ faults el →
  Element.id el = EmptyString →
  List.find (Element.attributeSet el) locatorAttributes = None →
  querySelectorAll d (structuralSelector el) = Throw
  ∨ (∃ found, querySelectorAll d (structuralSelector el) = Ok found
              ∧ length found ≤ 1)
  ∨ parentElement el = None →
  generateCssLocator d h = Some (structuralSelector el).
Proof.
  intros Hel Hf Hid Hattr Hcase.
  rewrite (generateCssLocator_chain _ _ _ Hel Hf (or_introl Hid)), Hattr.
  by rewrite nthOfType_unchanged.
Qed.

(** ** Name extractor *)

Lemma substring0_nonpositive n t : (n ≤ 0)%Z → JS.substring0 n t = EmptyString.
Proof.
  intros Hn. unfold JS.substring0. replace (Z.to_nat n) with 0 by lia.
  by destruct t.
Qed.

Lemma substring0_nonempty n t :
  (0 < n)%Z → t ≠ EmptyString → JS.substring0 n t ≠ EmptyString.
Proof.
  intros Hn Ht Hcut.
  pose proof (substring0_length n t) as Hlen. rewrite Hcut in Hlen.
  destruct t; [done|]. simpl in Hlen. lia.
Qed.

(** X6.  With a bound of 0 or less every name is the empty string. *)
Theorem nonpositive_bound_empties_name d h n s :
  (n ≤ 0)%Z → getElementName d h n = Ok s → s = EmptyString.
Proof.
  intros Hn Hs.
  destruct (getElementName_cut _ _ _ _ Hs) as (el & t & _ & -> & _).
  by apply substring0_nonpositive.
Qed.

Lemma getElementName_call d h el n :
  d !! h = Some el → CallName ∉ faults el →
  getElementName d h n = nameFn d el n.
Proof.
  intros Hel Hf. unfold getElementName, call.
  by rewrite Hel, bool_decide_eq_false_2.
Qed.

(** X7.  The text of a label wins over every attribute and over the
    text of the element: the name is the cut of the trimmed text of the
    label whose [for] is the id of the element when there is one with
    text, and otherwise of the parent when that is a label with text. *)
Theorem label_priority d h el n :
  d !! h = Some el →
  CallName ∉ faults el →
  (∀ found label,
     Element.id el ≠ EmptyString →
     querySelectorAll d (labelSelector el) = Ok found →
     head found ≫= (d !!.) = Some label →
     innerText label ≠ EmptyString →
     getElementName d h n = Ok (JS.substring0 n (JS.trim (innerText label))))
  ∧ (∀ parent,
       noLabelFor d el →
       insideLabel d el = true →
       parentElement el ≫= (d !!.) = Some parent →
       getElementName d h n = Ok (JS.substring0 n (JS.trim (innerText parent)))).
Proof.
  intros Hel Hf. rewrite (getElementName_call _ _ _ _ Hel Hf). split.
  - intros found label Hid Hfound Hlabel Htext.
    unfold nameFn, querySelector. fold (labelSelector el).
    apply truthy_nonempty in Hid, Htext.
    by rewrite Hid, Hfound; simpl; rewrite Hlabel, Htext.
  - intros parent Hno Hinside Hparent.
    unfold nameFn, querySelector. fold (labelSelector el).
    assert ((if JS.truthy (Element.id el)
             then label ← head <$> querySelectorAll d (labelSelector el);
                  Ok match label ≫= (d !!.) with
                     | Some label =>
                         if JS.truthy (innerText label)
                         then Some (JS.substring0 n (JS.trim (innerText label)))
                         else None
                     | None => None
                     end
             else Ok None) = Ok None) as ->.
    { destruct Hno as [-> | (found & -> & Hlabel)]; [done|].
      destruct (JS.truthy _); [|done]. simpl.
      destruct (head found ≫= (d !!.)) as [label|]; [|done].
      by rewrite Hlabel. }
    simpl. unfold insideLabel in Hinside. rewrite Hparent in *.
    by rewrite Hinside.
Qed.

Lemma nameFn_unlabelled d el n :
  noLabelFor d el → insideLabel d el = false →
  nameFn d el n =
  Ok match List.find (Element.attributeSet el) nameAttributes with
     | Some attr => JS.substring0 n (JS.trim (Element.attribute el attr))
     | None =>
         if JS.truthy (innerText el)
            && (0 <? String.length (JS.trim (innerText el)))
         then JS.substring0 n (JS.trim (innerText el))
         else JS.substring0 n (fallbackName el)
     end.
Proof.
  intros Hno Hinside. unfold nameFn, querySelector. fold (labelSelector el).
  assert ((if JS.truthy (Element.id el)
           then label ← head <$> querySelectorAll d (labelSelector el);
                Ok match label ≫= (d !!.) with
                   | Some label =>
                       if JS.truthy (innerText label)
                       then Some (JS.substring0 n (JS.trim (innerText label)))
                       else None
                   | None => None
                   end
           else Ok None) = Ok None) as ->.
  { destruct Hno as [-> | (found & -> & Hlabel)]; [done|].
    destruct (JS.truthy _); [|done]. simpl.
    destruct (head found ≫= (d !!.)) as [label|]; [|done].
    by rewrite Hlabel. }
  simpl. unfold insideLabel in Hinside.
  destruct (parentElement el ≫= (d !!.)) as [parent|];
    rewrite ?Hinside; unfold nameAttributes; simpl;
    repeat destruct (Element.attributeSet el _); try done;
    rewrite substring0_min; by destruct (JS.truthy (innerText el) && _).
Qed.

(** X8.  Without a label, the name is the cut of the trimmed value of
    the first of [title], [aria-label], [placeholder] and [alt] that is
    set, whatever the text of the element; a value of white space only
    gives the empty name. *)
Theorem name_attribute_priority d h el n attr :
  d !! h = Some el →
  CallName ∉ faults el →
  noLabelFor d el →
  insideLabel d el = false →
  List.find (Element.attributeSet el) nameAttributes = Some attr →
  getElementName d h n
  = Ok (JS.substring0 n (JS.trim (Element.attribute el attr)))
  ∧ (JS.trim (Element.attribute el attr) = EmptyString →
     getElementName d h n = Ok EmptyString).
Proof.
  intros Hel Hf Hno Hinside Hattr.
  rewrite (getElementName_call _ _ _ _ Hel Hf).
  rewrite (nameFn_unlabelled _ _ _ Hno Hinside), Hattr.
  split; [done|]. intros ->. f_equal. unfold JS.substring0.
  by destruct (Z.to_nat n).
Qed.

(** X9.  Without a label and without one of the four attributes, the
    name is the cut of the trimmed text of the element when that is not
    empty and of the fallback name otherwise; for an element with a tag
    name and a positive bound it is never empty. *)
Theorem text_or_fallback_name d h el n :
  d !! h = Some el →
  CallName ∉ faults el →
  noLabelFor d el →
  insideLabel d el = false →
  List.find (Element.attributeSet el) nameAttributes = None →
  getElementName d h n
  = Ok (JS.substring0 n (if bool_decide (JS.trim (innerText el) = EmptyString)
                         then fallbackName el
                         else JS.trim (innerText el)))
  ∧ (tagName el ≠ EmptyString → (0 < n)%Z →
     getElementName d h n ≠ Ok EmptyString).
Proof.
  intros Hel Hf Hno Hinside Hattr.
  rewrite (getElementName_call _ _ _ _ Hel Hf).
  rewrite (nameFn_unlabelled _ _ _ Hno Hinside), Hattr.
  assert (JS.truthy (innerText el) && (0 <? String.length (JS.trim (innerText el)))
          = negb (bool_decide (JS.trim (innerText el) = EmptyString))) as ->.
  { destruct (innerText el) as [|c t] eqn:Htext; [done|]. simpl JS.truthy.
    destruct (JS.trim (String c t)) as [|c' t']; [done|].
    by rewrite bool_decide_eq_false_2. }
  split.
  - by destruct (bool_decide _).
  - intros Htag Hn [= Hempty]. revert Hempty.
    destruct (bool_decide _) eqn:Htrim; simpl.
    + apply substring0_nonempty; [done|]. unfold fallbackName.
      repeat case_match; try apply append_nonempty_l;
        by apply toLowerCase_nonempty.
    + apply substring0_nonempty; [done|]. by apply bool_decide_eq_false in Htrim.
Qed.

(** ** Traversal engine *)

Lemma visits_rest d candidate rest v :
  v ∈ visitsElements d rest → v ∈ visitsElements d (candidate :: rest).
Proof.
  destruct candidate as [element contentFrame]. rewrite visitsElements_cons.
  intros Hin. apply elem_of_cons. right.
  destruct (elementOps d element); [|done].
  destruct contentFrame as [[frameElement|]|]; [|done..].
  apply elem_of_app. by right.
Qed.

(** Every write of a pass is a write of the loop body for a candidate
    that the pass visits. *)
Lemma trace_ops page op :
  op ∈ snd (trace page) →
  ∃ d element ops,
    d ∈ documents page ∧ (d, element) ∈ visits page
    ∧ elementOps d element = Some ops ∧ op ∈ ops.
Proof.
  induction page as [d|d elements IH] using Frame_nested_ind.
  { simpl. by intros ?%elem_of_nil. }
  fold (traceElements d elements). fold (visitsElements d elements).
  induction IH as [|[element contentFrame] rest Hframe _ IHrest].
  { simpl. by intros ?%elem_of_nil. }
  rewrite traceElements_cons.
  assert (op ∈ snd (traceElements d rest) →
          ∃ d' element' ops,
            d' ∈ documents (mkFrame d (Ok ((element, contentFrame) :: rest)))
            ∧ (d', element') ∈ visitsElements d ((element, contentFrame) :: rest)
            ∧ elementOps d' element' = Some ops ∧ op ∈ ops) as Hlater.
  { intros Hin. destruct (IHrest Hin) as (d' & element' & ops & ? & ? & ? & ?).
    exists d', element', ops. split_and!; try done.
    - by apply documents_rest.
    - by apply visits_rest. }
  destruct (elementOps d element) as [ops|] eqn:Hops; [|done].
  assert (op ∈ ops →
          ∃ d' element' ops',
            d' ∈ documents (mkFrame d (Ok ((element, contentFrame) :: rest)))
            ∧ (d', element') ∈ visitsElements d ((element, contentFrame) :: rest)
            ∧ elementOps d' element' = Some ops' ∧ op ∈ ops') as Hhere.
  { intros Hin. exists d, element, ops. split_and!; try done.
    - apply documents_here.
    - rewrite visitsElements_cons. apply elem_of_cons. by left. }
  destruct contentFrame as [[frameElement|]|]; simpl in Hframe.
  - assert (op ∈ snd (trace frameElement) →
            ∃ d' element' ops',
              d' ∈ documents (mkFrame d (Ok ((element, Ok (Some frameElement)) :: rest)))
              ∧ (d', element')
                ∈ visitsElements d ((element, Ok (Some frameElement)) :: rest)
              ∧ elementOps d' element' = Some ops' ∧ op ∈ ops') as Hinner.
    { intros Hin. destruct (Hframe Hin) as (d' & element' & ops' & ? & ? & ? & ?).
      exists d', element', ops'. split_and!; try done.
      - eapply documents_below; [|done]. constructor.
      - rewrite visitsElements_cons, Hops. apply elem_of_cons. right.
        apply elem_of_app. by left. }
    destruct (trace frameElement) as [[|] inner]; simpl in *.
    + destruct (traceElements d rest) as [c later]; simpl in *.
      rewrite !elem_of_app. intros [?|[?|?]]; auto.
    + rewrite !elem_of_app. intros [?|?]; auto.
  - destruct (traceElements d rest) as [c later]; simpl in *.
    rewrite !elem_of_app. intros [?|?]; auto.
  - simpl. auto.
Qed.

Lemma elementOps_set d element ops key value :
  elementOps d element = Some ops → OpSet key value ∈ ops →
  qualifies (getElementVisibilityAndBoundingBox d element) = true
  ∧ generateCssLocator d element = Some key
  ∧ locator value = key ∧ 1 ≤ count value
  ∧ locatorCount d key = Ok (count value)
  ∧ getElementName d element nameMaxLength = Ok (name value).
Proof.
  intros Hops Hin.
  destruct (elementOps_written _ _ _ _ _ Hops Hin) as (? & ? & ? & ?).
  revert Hops Hin. unfold elementOps.
  destruct (qualifies _); [|done].
  destruct (generateCssLocator d element) as [l|]; [|done].
  destruct (JS.truthy l); [|done]. intros [= <-].
  rewrite elem_of_app. intros [Hp|Hr].
  - exfalso. assert (key ∈ recorded (parentOps d element)) as Hk.
    { unfold recorded. apply list_elem_of_omap. eauto. }
    rewrite parentOps_no_record in Hk. by apply elem_of_nil in Hk.
  - apply recordOps_written in Hr as (-> & _). by split_and!.
Qed.

Lemma elementOps_delete d element ops key :
  elementOps d element = Some ops → OpDelete key ∈ ops →
  qualifies (getElementVisibilityAndBoundingBox d element) = true
  ∧ ∃ parent,
      parentOf d element = Ok (Some parent)
      ∧ generateCssLocator d parent = Some key
      ∧ qualifies (getElementVisibilityAndBoundingBox d parent) = true.
Proof.
  unfold elementOps.
  destruct (qualifies _); [|done].
  destruct (generateCssLocator d element) as [l|]; [|done].
  destruct (JS.truthy l); [|done]. intros [= <-].
  rewrite elem_of_app. intros [Hp|Hr].
  - split; [done|]. revert Hp. unfold parentOps.
    destruct (parentOf d element) as [[parent|]|] eqn:Hparent;
      try by intros ?%elem_of_nil.
    destruct (generateCssLocator d parent) as [lp|] eqn:Hlp;
      [|by intros ?%elem_of_nil].
    destruct (JS.truthy lp); simpl; [|by intros ?%elem_of_nil].
    destruct (qualifies (getElementVisibilityAndBoundingBox d parent)) eqn:Hq;
      [|by intros ?%elem_of_nil].
    intros [= ->]%list_elem_of_singleton. by exists parent.
  - exfalso. revert Hr. unfold recordOps.
    repeat case_match; set_solver.
Qed.

Lemma applyOps_untouched ops inv key :
  (∀ op, op ∈ ops → opKey op ≠ key) →
  applyOps ops inv !! key = inv !! key.
Proof.
  revert inv. induction ops as [|op ops IH]; intros inv Hkeys; [done|].
  change (applyOps (op :: ops) inv) with (applyOps ops (applyOp inv op)).
  rewrite IH by (intros; apply Hkeys; by constructor).
  assert (opKey op ≠ key) as Hne by (apply Hkeys; constructor).
  destruct op; simpl in *.
  - by rewrite lookup_insert_ne.
  - by rewrite lookup_delete_ne.
Qed.


(** X10.  A pass leaves alone every entry whose key is the locator of
    no element of the documents of the page: an entry that has become
    stale is never pruned. *)
Theorem unrelated_entry_kept page inv key :
  (∀ d h, d ∈ documents page → generateCssLocator d h ≠ Some key) →
  snd (traverseAndExtract page inv) !! key = inv !! key.
Proof.
  intros Hstale. rewrite traverse_trace. cbn [snd].
  apply applyOps_untouched. intros op Hop Hkey.
  destruct (trace_ops _ _ Hop) as (d & element & ops & Hd & _ & Hops & Hin).
  destruct op as [key' value|key']; simpl in Hkey; subst key'.
  - destruct (elementOps_set _ _ _ _ _ Hops Hin) as (_ & Hgen & _).
    by apply (Hstale d element).
  - destruct (elementOps_delete _ _ _ _ Hops Hin) as (_ & parent & _ & Hgen & _).
    by apply (Hstale d parent).
Qed.



Lemma traverseElements_trace d elements inv :
  traverseElements d elements inv
  = (fst (traceElements d elements), applyOps (snd (traceElements d elements)) inv).
Proof. apply traverse_trace. Qed.

Lemma traverseElements_app d pre post inv :
  traverseElements d (pre ++ post) inv =
  match traverseElements d pre inv with
  | (Normal, inv1) => traverseElements d post inv1
  | (Abrupt, inv1) => (Abrupt, inv1)
  end.
Proof.
  rewrite (traverseElements_trace d (pre ++ post)), traceElements_app.
  rewrite (traverseElements_trace d pre).
  destruct (traceElements d pre) as [[|] before]; [|done].
  cbn [fst snd]. rewrite traverseElements_trace.
  destruct (traceElements d post) as [c later]. simpl.
  by rewrite applyOps_app.
Qed.

(** X14.  When [contentFrame()] rejects for a candidate that reached
    it, the pass ends there: what the candidates before it and the
    candidate itself wrote stays written, and the candidates after it
    are not examined, whatever they are. *)
Theorem frame_rejection_stops_pass d pre element post inv locator' :
  fst (traverseAndExtract (mkFrame d (Ok pre)) inv) = Normal →
  qualifies (getElementVisibilityAndBoundingBox d element) = true →
  generateCssLocator d element = Some locator' →
  locator' ≠ EmptyString →
  traverseAndExtract (mkFrame d (Ok (pre ++ (element, Throw) :: post))) inv
  = (Abrupt,
     snd (examineElement d element
            (snd (traverseAndExtract (mkFrame d (Ok pre)) inv)))).
Proof.
  intros Hpre Hq Hgen Hne.
  fold (traverseElements d (pre ++ (element, Throw) :: post) inv).
  fold (traverseElements d pre inv) in *.
  rewrite traverseElements_app.
  destruct (traverseElements d pre inv) as [[|] inv1]; [|done].
  rewrite traverseElements_cons. simpl.
  unfold examineElement. rewrite gate_qualifies, Hq, Hgen. simpl.
  apply truthy_nonempty in Hne. by rewrite Hne.
Qed.




(** ** The session and its accessor *)

(** X16.  The first call settles exactly when the enumerations and
    frame resolutions of the first pass do; the session it resolves to
    has the inventory of that pass, one active timer, no stop request
    and no pass started by a pulse.  Otherwise the call rejects and no
    timer is installed. *)
Theorem extraction_starts page :
  extractVisibleElementLocators page =
  if settled page then
    Ok {| allFoundElements := examineAll ∅ (visits page);
          pollingIntervalId := Some 0;
          stopPolling := false;
          activeTimers := {[0]};
          nextTimer := 1;
          passes := 0 |}
  else Throw.
Proof.
  unfold extractVisibleElementLocators.
  destruct (settled page) eqn:Hs.
  - rewrite (settled_traverse _ Hs). unfold startDynamicElementObservation.
    simpl. f_equal; f_equal; apply (left_id_L ∅ (∪)).
  - destruct (traverseAndExtract page ∅) as [[|] found] eqn:Hpass; [|done].
    exfalso. assert (settled page = true); [|congruence].
    apply (traverse_normal_iff page ∅). by rewrite Hpass.
Qed.

(** X17.  In every state of a session the accessor returns one
    descriptor per entry: no two have the same locator, each is the
    entry under its own locator, and each has a count of at least 1. *)
Theorem getLocators_distinct page s0 es :
  extractVisibleElementLocators page = Ok s0 →
  NoDup (locator <$> getLocators (run s0 es))
  ∧ length (getLocators (run s0 es)) = size (allFoundElements (run s0 es))
  ∧ ∀ e, e ∈ getLocators (run s0 es) →
         allFoundElements (run s0 es) !! locator e = Some e ∧ 1 ≤ count e.
Proof.
  intros Hs0. unfold getLocators.
  assert (∀ key value,
            (key, value) ∈ map_to_list (allFoundElements (run s0 es)) →
            locator value = key ∧ 1 ≤ count value) as Hentries.
  { intros key value Hin%elem_of_map_to_list.
    destruct (session_entries _ _ _ _ _ Hs0 Hin) as (page' & _ & Hw).
    destruct Hw as (? & ? & _). by split. }
  split_and!.
  - rewrite <- list_fmap_compose.
    rewrite (list_fmap_ext (locator ∘ snd) fst).
    + apply NoDup_fst_map_to_list.
    + intros i [key value] Hi. simpl.
      by apply Hentries, list_elem_of_lookup_2 with i.
  - by rewrite length_fmap, length_map_to_list.
  - intros e ([key value] & -> & Hin)%list_elem_of_fmap. simpl.
    destruct (Hentries _ _ Hin) as [-> ?]. split; [|done].
    by apply elem_of_map_to_list.
Qed.

(** X18.  A loop that is started again after [stopObservation] does not
    come back: the new timer is installed, and at its first pulse the
    callback clears it and returns without a traversal. *)
Theorem restart_after_stop page s0 es page' :
  extractVisibleElementLocators page = Ok s0 →
  activeTimers (startDynamicElementObservation (stopObservation (run s0 es)))
  = {[nextTimer (run s0 es)]}
  ∧ activeTimers
      (pulse page' (nextTimer (run s0 es))
         (startDynamicElementObservation (stopObservation (run s0 es)))) = ∅
  ∧ pollingIntervalId
      (pulse page' (nextTimer (run s0 es))
         (startDynamicElementObservation (stopObservation (run s0 es)))) = None
  ∧ passes
      (pulse page' (nextTimer (run s0 es))
         (startDynamicElementObservation (stopObservation (run s0 es))))
    = passes (run s0 es)
  ∧ allFoundElements
      (pulse page' (nextTimer (run s0 es))
         (startDynamicElementObservation (stopObservation (run s0 es))))
    = allFoundElements (run s0 es).
Proof.
  intros Hs0.
  assert (oneTimer s0) as H0.
  { destruct (extract_inventory _ _ Hs0) as (_ & Hid & Htimers & _).
    unfold oneTimer. by rewrite Hid, Htimers. }
  pose proof (oneTimer_run es s0 H0) as Hs. revert Hs.
  generalize (run s0 es). intros [inv id flag timers next n].
  unfold oneTimer, pulse, startDynamicElementObservation, stopObservation.
  simpl. intros ->.
  destruct id as [id|]; simpl;
    (rewrite bool_decide_eq_true_2 by set_solver); simpl;
    split_and!; try done; set_solver.
Qed.

(** ** Class tokens *)

Lemma allChars_append p s t :
  Reference.allChars p (s +:+ t)
  = Reference.allChars p s && Reference.allChars p t.
Proof.
  induction s as [|c s IH]; [done|].
  rewrite append_cons. simpl. by rewrite IH, andb_assoc.
Qed.

Lemma includes_space s :
  Reference.allChars (λ c, negb (JS.isAsciiWhiteSpace c)) s = true →
  JS.includes s " " = false.
Proof.
  induction s as [|c s IH]; [done|].
  intros [Hc Hs]%andb_true_iff.
  change (JS.includes (String c s) " ")
    with (String.prefix " " (String c s) || JS.includes s " ").
  rewrite (IH Hs), orb_false_r. revert Hc.
  by destruct c as [[] [] [] [] [] [] [] []].
Qed.

Lemma tokensFrom_tokens s :
  ∀ cur,
    Reference.allChars (λ c, negb (JS.isAsciiWhiteSpace c)) cur = true →
    Forall (λ t, JS.truthy t && negb (JS.includes t " ") = true)
           (JS.tokensFrom cur s).
Proof.
  assert (∀ cur,
            Reference.allChars (λ c, negb (JS.isAsciiWhiteSpace c)) cur = true →
            Forall (λ t, JS.truthy t && negb (JS.includes t " ") = true)
                   (if JS.truthy cur then [cur] else [])) as Hcur.
  { intros cur Hfree. destruct (JS.truthy cur) eqn:Ht; constructor; [|done].
    by rewrite Ht, includes_space. }
  induction s as [|c s IH]; intros cur Hfree; simpl; [by apply Hcur|].
  destruct (JS.isAsciiWhiteSpace c) eqn:Hc.
  - apply Forall_app. split; [by apply Hcur|]. by apply IH.
  - apply IH. rewrite allChars_append, Hfree. simpl. by rewrite Hc.
Qed.

Lemma distinct_Forall (P : string → Prop) l :
  ∀ seen, Forall P l → Forall P (JS.distinct seen l).
Proof.
  induction l as [|x l IH]; intros seen Hl; simpl; [done|].
  apply Forall_cons in Hl as [Hx Hl].
  destruct (bool_decide (x ∈ seen)); [by apply IH|].
  constructor; [done|by apply IH].
Qed.

Lemma filter_all {A} (P : A → Prop) `{∀ x, Decision (P x)} (l : list A) :
  Forall P l → filter P l = l.
Proof.
  induction 1 as [|x l Hx Hl IH]; [done|].
  rewrite filter_cons_True by done. by rewrite IH.
Qed.

(** X19.  The filter of line 108 drops nothing: every token of the
    class list is non-empty and has no space, so an element with classes
    gets a structural selector that begins with its tag name followed
    by all its classes, each once and in their order. *)
Theorem classes_all_kept el :
  filter (λ c, JS.truthy c && negb (JS.includes c " ")) (Element.classList el)
  = Element.classList el
  ∧ (Element.classList el ≠ [] →
     startsWith (JS.toLowerCase (tagName el) +:+ "."
                 +:+ String.concat "." (Element.classList el))
                (structuralSelector el)).
Proof.
  assert (filter (λ c, JS.truthy c && negb (JS.includes c " "))
                 (Element.classList el) = Element.classList el) as Hall.
  { apply filter_all. unfold Element.classList.
    apply distinct_Forall.
    eapply Forall_impl; [by apply (tokensFrom_tokens _ EmptyString)|].
    intros t Ht. by apply Is_true_true. }
  split; [exact Hall|]. intros Hsome. unfold structuralSelector.
  rewrite Hall.
  assert (JS.truthy (Element.className el) = true) as ->.
  { destruct (Element.className el) eqn:Hc; [|done].
    exfalso. apply Hsome. unfold Element.classList. by rewrite Hc. }
  assert ((0 <? length (Element.classList el)) = true) as ->.
  { apply Nat.ltb_lt. destruct (Element.classList el); [done|simpl; lia]. }
  repeat case_match;
    repeat first [apply startsWith_refl | apply startsWith_append].
Qed.

End Extraction.

(** * The properties on concrete pages

    The reference engine, a minimum element size of 5 pixels and names
    of at most 50 characters (the defaults of the options). *)

Section Concrete.
Import Pages.
#[local] Existing Instance Reference.browser.

(** ** The reference engine on identifiers *)

Lemma span_all p s :
  Reference.allChars p s = true → Reference.span p s = (s, EmptyString).
Proof.
  induction s as [|c s IH]; simpl; [done|].
  intros [Hc Hs]%andb_true_iff. by rewrite Hc, IH.
Qed.

Lemma parseParts_id fuel r :
  Reference.parseParts (S fuel) (String "#" r) =
  Reference.ident r ≫= λ '(i, rest),
    (Reference.SId i ::.) <$> Reference.parseParts fuel rest.
Proof. reflexivity. Qed.

Lemma parseParts_end fuel :
  Reference.parseParts (S fuel) EmptyString = Ok [].
Proof. reflexivity. Qed.

Lemma parse_hash s :
  Reference.parse (String "#" s) =
  Reference.parseParts (S (S (String.length s))) (String "#" s).
Proof. reflexivity. Qed.

Lemma parse_id_selector i :
  Reference.isIdentifier i = true →
  Reference.parse ("#" +:+ i) = Ok [Reference.SId i].
Proof.
  destruct i as [|c r]; [done|]. unfold Reference.isIdentifier.
  intros [Hc Hr]%andb_true_iff.
  change ("#" +:+ String c r) with (String "#" (String c r)).
  rewrite parse_hash, parseParts_id. unfold Reference.ident. rewrite Hc.
  rewrite (span_all Reference.isIdentChar (String c r)).
  - cbn [mbind Result_bind]. by rewrite parseParts_end.
  - simpl. unfold Reference.isIdentChar at 1. by rewrite Hc, Hr.
Qed.

(** Both reference engines read [#i] as the selector of the elements
    with the id [i] when [i] is an identifier. *)
Lemma reference_id_selector d i :
  Reference.isIdentifier i = true → idSelectorDenotes d i.
Proof.
  intros Hi.
  assert (querySelectorAll d ("#" +:+ i) = Ok (withId d i)) as Hpage.
  { simpl. unfold Reference.select. rewrite (parse_id_selector _ Hi). simpl.
    f_equal. unfold withId. apply list_filter_iff. intros n.
    unfold Reference.matches. destruct (d !! n) as [el|]; simpl; [|done].
    rewrite andb_true_r, bool_decide_eq_true.
    unfold Element.id, Element.attribute.
    destruct (Element.getAttribute el "id") as [v|]; simpl.
    - split; congruence.
    - split; [done|]. intros [= <-]. done. }
  split; [exact Hpage|].
  change (locatorCount d ("#" +:+ i))
    with (length <$> querySelectorAll d ("#" +:+ i)).
  by rewrite Hpage.
Qed.

(** The scenarios of the specification. *)
Example scenario_form :
  snd (traverseAndExtract 5 50 (Reference.flat form) ∅)
  = {[ "#submit-btn" := {| locator := "#submit-btn"; name := "Go"; count := 1 |};
       "[name=" +:+ JS.dquote +:+ "email" +:+ JS.dquote +:+ "]" :=
         {| locator := "[name=" +:+ JS.dquote +:+ "email" +:+ JS.dquote +:+ "]";
            name := "Enter email"; count := 1 |};
       "p" := {| locator := "p"; name := "Hello world"; count := 1 |} ]}.
Proof. by vm_compute. Qed.

(** C6 on a page: the div with [display: none] is left by [continue]. *)
Lemma hidden_element_not_recorded_witness :
  notRendered offDiv
  ∧ examineElement 5 50 hiddenDiv 1 ∅ = (Continue, ∅).
Proof.
  assert (notRendered offDiv) as Hhidden by (by left).
  split; [exact Hhidden|].
  exact (proj1 (proj2 (proj2
    (hidden_element_not_recorded 5 50 hiddenDiv 1 offDiv ∅ eq_refl Hhidden)))).
Defined.





(** Where C2 ends: when the frame of the iframe of [flakyPage] cannot be
    resolved, the pass ends abruptly after the three candidates before
    it, with the iframe recorded. *)
Example frame_rejection_escapes :
  let page := mkFrame flaky
                (Ok [ (0, Ok None); (1, Ok None); (2, Ok None); (3, Throw);
                      (0, Ok None) ]) in
  settled 5 50 page = false
  ∧ fst (traverseAndExtract 5 50 page ∅) = Abrupt
  ∧ dom (snd (traverseAndExtract 5 50 page ∅)) = {[ "#inner" ]}.
Proof. by vm_compute. Qed.

(** C3 on a page: nothing in [form] matches [#nope]. *)
Lemma unmatched_locator_not_recorded_witness :
  locatorCount form "#nope" = Ok 0
  ∧ validateAndRecord 50 form 1 "#nope" ∅ = ∅.
Proof.
  split; [reflexivity|].
  exact (proj1 (unmatched_locator_not_recorded 5 50 form 1 "#nope" ∅ eq_refl)).
Defined.

(** C4, what fails.  In [dottedId] one element has the id [a.b] and one
    the id [x:y].  [#a.b] selects elements with id [a] and class [b],
    of which there are none, and the generator falls through to the
    structural selector; [#x:y] is no selector, the uniqueness test
    throws and the generator returns [null]. *)
Lemma dotted_id_not_used :
  Element.id <$> dottedId !! 1 = Some "a.b"
  ∧ length (withId dottedId "a.b") = 1
  ∧ generateCssLocator dottedId 1 = Some "div:nth-of-type(1)"
  ∧ locatorCount dottedId "#a.b" = Ok 0
  ∧ Element.id <$> dottedId !! 2 = Some "x:y"
  ∧ length (withId dottedId "x:y") = 1
  ∧ generateCssLocator dottedId 2 = None.
Proof. by vm_compute. Qed.

(** C4 on a page: the button of [form]. *)
Lemma unique_id_locator_witness :
  idSelectorDenotes form "submit-btn"
  ∧ length (withId form "submit-btn") = 1
  ∧ generateCssLocator form 1 = Some "#submit-btn"
  ∧ locatorCount form "#submit-btn" = Ok 1.
Proof.
  assert (idSelectorDenotes form "submit-btn") as Hid
    by (by apply reference_id_selector).
  split; [exact Hid|]. split; [reflexivity|].
  apply (unique_id_locator form 1
           (Reference.node "BUTTON" [("id", "submit-btn")] "Go" (Some 0))
           eq_refl).
  - apply not_elem_of_nil.
  - discriminate.
  - exact Hid.
  - reflexivity.
Defined.



(** C8 on a page: the session on [form] through [history]. *)
Lemma observation_loop_witness :
  ∃ s0,
    extractVisibleElementLocators 5 50 (Reference.flat form) = Ok s0
    ∧ size (activeTimers (run 5 50 s0 history)) ≤ 1
    ∧ passes (run 5 50 s0 history) = 2.
Proof.
  eexists. split; [reflexivity|]. split.
  - exact (proj1 (proj2 (observation_loop 5 50 (Reference.flat form) _ history
                           eq_refl))).
  - by vm_compute.
Defined.

(** C9 on a page: in [utilityClass] the inner div gets the locator
    [div.md:flex], which is no selector; its count rejects after the
    entry of [#p] was deleted, and the inventory is left empty.  So is
    it by the whole pass, which starts with the entry of [#p] and ends
    with none. *)
Lemma parent_removed_without_replacement_witness :
  generateCssLocator utilityClass 2 = Some "div.md:flex"
  ∧ locatorCount utilityClass "div.md:flex" = Throw
  ∧ is_Some (withParent !! "#p")
  ∧ examineElement 5 50 utilityClass 2 withParent
    = (Proceed, delete "#p" withParent)
  ∧ delete "#p" withParent = (∅ : Inventory)
  ∧ traverseAndExtract 5 50 (Reference.flat utilityClass) withParent
    = (Normal, ∅).
Proof.
  assert (is_Some (withParent !! "#p")) as Hin by (by eexists).
  split; [reflexivity|]. split; [reflexivity|]. split; [exact Hin|]. split.
  - exact (proj1 (proj2 (proj2
      (parent_removed_without_replacement 5 50 utilityClass 2 "div.md:flex"
         1 "#p" withParent eq_refl eq_refl ltac:(discriminate) eq_refl eq_refl
         ltac:(discriminate) Hin eq_refl (or_intror eq_refl))))).
  - split; by vm_compute.
Defined.

(** C10 on a page: the locator of the button of [form]. *)
Lemma generated_locator_nonempty_witness :
  tagName (Reference.node "BUTTON" [("id", "submit-btn")] "Go" (Some 0))
    ≠ EmptyString
  ∧ ∀ s, generateCssLocator form 1 = Some s → s ≠ EmptyString.
Proof.
  assert (tagName (Reference.node "BUTTON" [("id", "submit-btn")] "Go" (Some 0))
            ≠ EmptyString) as Htag by discriminate.
  split; [exact Htag|].
  exact (proj1 (proj2 (generated_locator_nonempty form 1 _ eq_refl Htag))).
Defined.

(** ** The further properties on concrete pages *)

(** X1 on a page: the button of [form] is live, has a box of 100 by 20
    pixels and passes the style check; it is reported visible with the
    width and the height of its box. *)
Lemma visible_iff_witness :
  isVisible (getElementVisibilityAndBoundingBox form 1) = true
  ∧ width (getElementVisibilityAndBoundingBox form 1) = 100%Q
  ∧ height (getElementVisibilityAndBoundingBox form 1) = 20%Q.
Proof.
  assert (Hvisible : isVisible (getElementVisibilityAndBoundingBox form 1)
                     = true).
  { apply (proj1 (visible_iff form 1)).
    eexists _, _. split; [reflexivity|].
    split; [apply not_elem_of_nil|]. split; [apply not_elem_of_nil|].
    split; [reflexivity|]. split; [discriminate|]. split; [discriminate|].
    split; [by eexists|]. by split. }
  split; [exact Hvisible|].
  exact (proj2 (visible_iff form 1) _ _ eq_refl eq_refl Hvisible).
Defined.

(** X2 on a page: the input of [form] has a placeholder and a name and
    no id; its locator is the selector of the name. *)
Lemma locator_attribute_priority_witness :
  Element.id (Reference.node "INPUT" [("placeholder", "Enter email");
                                      ("name", "email")] EmptyString (Some 0))
  = EmptyString
  ∧ generateCssLocator form 2 = Some (attributeSelector "name" "email").
Proof.
  split; [reflexivity|].
  exact (proj1 (locator_attribute_priority 5 50 form 2 _ ∅ eq_refl
                  (not_elem_of_nil _) (or_introl eq_refl))).
Defined.

(** X3 on a page: the div with the id [x:y] of [dottedId]. *)
Lemma invalid_id_selector_skips_witness :
  querySelectorAll dottedId "#x:y" = Throw
  ∧ generateCssLocator dottedId 2 = None
  ∧ examineElement 5 50 dottedId 2 ∅ = (Continue, ∅).
Proof.
  split; [reflexivity|].
  exact (invalid_id_selector_skips 5 50 dottedId 2
           (Reference.node "DIV" [("id", "x:y")] "text" (Some 0)) ∅
           eq_refl ltac:(discriminate) eq_refl).
Defined.

(** X4 on a page: the second label of [labelled] is the second of the
    two labels among the children of the body. *)
Lemma positional_suffix_witness :
  querySelectorAll labelled "label" = Ok [1; 3]
  ∧ ∃ index,
      nthOfType labelled 3 (Reference.node "LABEL" [] "Subscribe " (Some 0))
                "label"
      = "label" +:+ ":nth-of-type(" +:+ JS.showZ index +:+ ")"
      ∧ (1 ≤ index ≤ 2)%Z.
Proof.
  split; [reflexivity|].
  destruct (positional_suffix labelled 3
              (Reference.node "LABEL" [] "Subscribe " (Some 0)) 0 "label" [1; 3]
              eq_refl eq_refl ltac:(by vm_compute) ltac:(simpl; lia))
    as (index & Hsuffix & Hrange & _).
  exists index. split; [exact Hsuffix|exact Hrange].
Defined.

(** X5 on a page: the inner div of [utilityClass]. *)
Lemma structural_selector_returned_witness :
  querySelectorAll utilityClass "div.md:flex" = Throw
  ∧ generateCssLocator utilityClass 2 = Some "div.md:flex".
Proof.
  split; [reflexivity|].
  exact (structural_selector_returned utilityClass 2
           (Reference.node "DIV" [("class", "md:flex")] "text" (Some 1))
           eq_refl (not_elem_of_nil _) eq_refl eq_refl (or_introl eq_refl)).
Defined.

(** X6 on a page: the paragraph of [form] with a bound of 0. *)
Lemma nonpositive_bound_empties_name_witness :
  (0 ≤ 0)%Z
  ∧ getElementName form 4 0 = Ok (JS.substring0 0 "Hello world")
  ∧ JS.substring0 0 "Hello world" = EmptyString.
Proof.
  assert (0 ≤ 0)%Z as Hbound by lia.
  assert (getElementName form 4 0 = Ok (JS.substring0 0 "Hello world"))
    as Hname by reflexivity.
  split; [exact Hbound|]. split; [exact Hname|].
  exact (nonpositive_bound_empties_name form 4 0 _ Hbound Hname).
Defined.

(** X7 on a page: the input [#email] of [labelled] has a title, and its
    name is the text of its label. *)
Lemma label_priority_witness :
  Element.attribute (Reference.node "INPUT" [("id", "email");
                                             ("title", "Your email")]
                                    EmptyString (Some 0)) "title"
  = "Your email"
  ∧ getElementName labelled 2 50 = Ok "Email address".
Proof.
  split; [reflexivity|].
  exact (proj1 (label_priority labelled 2 _ 50 eq_refl (not_elem_of_nil _))
           [1] (Reference.node "LABEL" [("for", "email")] "Email address " (Some 0))
           ltac:(discriminate) eq_refl eq_refl ltac:(discriminate)).
Defined.

(** X8 on a page: the input of [form] has no title and no aria-label;
    its name is its placeholder. *)
Lemma name_attribute_priority_witness :
  List.find (Element.attributeSet
               (Reference.node "INPUT" [("placeholder", "Enter email");
                                        ("name", "email")] EmptyString (Some 0)))
            nameAttributes = Some "placeholder"
  ∧ getElementName form 2 50 = Ok "Enter email".
Proof.
  split; [reflexivity|].
  exact (proj1 (name_attribute_priority form 2 _ 50 "placeholder" eq_refl
                  (not_elem_of_nil _) (or_introl eq_refl) eq_refl eq_refl)).
Defined.

(** X9 on a page: the paragraph of [form]. *)
Lemma text_or_fallback_name_witness :
  getElementName form 4 50 = Ok "Hello world"
  ∧ getElementName form 4 50 ≠ Ok EmptyString.
Proof.
  destruct (text_or_fallback_name form 4
              (Reference.node "P" [] "Hello world" (Some 0)) 50 eq_refl
              (not_elem_of_nil _) (or_introl eq_refl) eq_refl eq_refl)
    as [Hname Hsome].
  split; [exact Hname|]. apply Hsome; [discriminate|lia].
Defined.

Lemma card_generates_no_old d h :
  d ∈ documents (Reference.flat card) → generateCssLocator d h ≠ Some "#old".
Proof.
  intros ->%list_elem_of_singleton.
  destruct h as [|[|[|h]]]; by vm_compute.
Qed.

(** X10 on a page: the entry of [#old] survives a pass over [card]. *)
Lemma unrelated_entry_kept_witness :
  snd (traverseAndExtract 5 50 (Reference.flat card) withStale) !! "#old"
  = withStale !! "#old".
Proof.
  exact (unrelated_entry_kept 5 50 (Reference.flat card) withStale "#old"
           card_generates_no_old).
Defined.



(** X14 on a page: [flaky] with an iframe whose frame cannot be
    resolved and a candidate after it. *)
Lemma frame_rejection_stops_pass_witness :
  traverseAndExtract 5 50
    (mkFrame flaky (Ok ([(0, Ok None); (1, Ok None); (2, Ok None)]
                        ++ (3, Throw) :: [(0, Ok None)]))) ∅
  = (Abrupt,
     snd (examineElement 5 50 flaky 3
            (snd (traverseAndExtract 5 50
                    (mkFrame flaky (Ok [(0, Ok None); (1, Ok None); (2, Ok None)]))
                    ∅)))).
Proof.
  exact (frame_rejection_stops_pass 5 50 flaky
           [(0, Ok None); (1, Ok None); (2, Ok None)] 3 [(0, Ok None)] ∅ "#inner"
           eq_refl eq_refl eq_refl ltac:(discriminate)).
Defined.


(** X17 on a page: the accessor at the end of [history]. *)
Lemma getLocators_distinct_witness :
  ∃ s0,
    extractVisibleElementLocators 5 50 (Reference.flat form) = Ok s0
    ∧ NoDup (locator <$> getLocators (run 5 50 s0 history)).
Proof.
  eexists. split; [reflexivity|].
  exact (proj1 (getLocators_distinct 5 50 (Reference.flat form) _ history
                  eq_refl)).
Defined.

(** X18 on a page: the session on [form] is stopped after [history] and
    started again; the pulse of the new timer clears it. *)
Lemma restart_after_stop_witness :
  ∃ s0,
    extractVisibleElementLocators 5 50 (Reference.flat form) = Ok s0
    ∧ activeTimers
        (pulse 5 50 (Reference.flat form) (nextTimer (run 5 50 s0 history))
           (startDynamicElementObservation
              (stopObservation (run 5 50 s0 history)))) = ∅.
Proof.
  eexists. split; [reflexivity|].
  exact (proj1 (proj2 (restart_after_stop 5 50 (Reference.flat form) _ history
                         (Reference.flat form) eq_refl))).
Defined.

End Concrete.
